(** * mergekit.sparsify: sparsification masks for weight-delta tensors

    A shallow embedding of [mergekit/sparsify.py] and the verification of
    its specification.

    Modelling choices, fixed once for the whole development:

    - Tensor elements are rationals ([Q]).  Floating-point arithmetic is
      taken as exact, and the dtype casts ([.float()], [.to(dtype)]) keep
      the values; the dtype and the device are carried along because the
      code branches on them.
    - Tensors are Python objects: they live in a store and are passed by
      handle, so that the in-place operators of the source ([*=], [/=],
      indexed assignment) and the aliasing of a returned handle are
      visible.  Temporaries that are neither mutated nor returned are
      plain values.
    - The global random generator of torch is part of the state: a
      sequence of uniform samples consumed by [torch.bernoulli].
    - Exceptions are outcomes; an outcome carries the state reached when
      the exception was raised.
    - The model covers tensors of rank 1 and 2 (bias vectors and weight
      matrices); operands of a binary elementwise operator have the same
      shape (no broadcasting). *)

From Stdlib Require Import QArith Qround Qabs Qminmax ZArith Lia Lqa String.
From Stdlib Require Import Sorting.Sorted Sorting.Permutation.
From stdpp Require Import base list gmap.

Local Open Scope Q_scope.

(** ** Data model *)

Inductive dtype := float16 | bfloat16 | float32 | float64.
Inductive device := cpu | cuda.

(** [len(tensor.shape)] is 1 or 2. *)
Inductive shape := Shape1 (n : nat) | Shape2 (rows cols : nat).

Record torch_tensor := Tensor {
  t_shape : shape;
  t_dtype : dtype;
  t_device : device;
  t_data : list Q   (* row-major, as seen through [view(-1)] *)
}.

Definition shape_numel (s : shape) : nat :=
  match s with Shape1 n => n | Shape2 r c => (r * c)%nat end.

Definition shape_rank (s : shape) : nat :=
  match s with Shape1 _ => 1%nat | Shape2 _ _ => 2%nat end.

(** A tensor holds as many elements as its shape announces. *)
Definition well_formed (t : torch_tensor) : Prop :=
  length (t_data t) = shape_numel (t_shape t).

(** [tensor.numel()] *)
Definition numel (t : torch_tensor) : nat := length (t_data t).

Definition with_data (t : torch_tensor) (d : list Q) : torch_tensor :=
  Tensor (t_shape t) (t_dtype t) (t_device t) d.

(** [class SparsificationMethod(str, Enum)] *)
Inductive SparsificationMethod :=
  | method_magnitude
  | method_random
  | method_magnitude_outliers
  | method_rank_magnitude_sampling
  | method_consensus_ta
  | method_consensus_ties.

(** A formatted message: literal text interleaved with formatted floats. *)
Inductive fragment := Text (s : string) | Float (q : Q).

Inductive exn :=
  | AssertionError (msg : string)
  | ValueError (msg : list fragment)
  | NotImplementedError (m : SparsificationMethod)
  | RuntimeError (msg : string)
  | IndexError (msg : string).

(** A handle on a tensor object. *)
Abbreviation loc := nat (only parsing).

Record state := State {
  heap : gmap nat torch_tensor;   (* live tensor objects, by handle *)
  rng : nat -> Q            (* uniform samples still to be drawn *)
}.

Inductive outcome (A : Type) :=
  | Ok (a : A) (s : state)
  | Raise (e : exn) (s : state).
Arguments Ok {A} a s.
Arguments Raise {A} e s.

(** ** The state-and-exception monad *)

Definition M (A : Type) : Type := state -> outcome A.

Definition ret {A} (a : A) : M A := fun s => Ok a s.

Definition bind {A B} (c : M A) (k : A -> M B) : M B :=
  fun s => match c s with
           | Ok a s' => k a s'
           | Raise e s' => Raise e s'
           end.

Definition raise {A} (e : exn) : M A := fun s => Raise e s.

Declare Scope prog_scope.
Delimit Scope prog_scope with prog.
Notation "x <- c ;; k" := (bind c (fun x => k))
  (at level 100, c at next level, right associativity) : prog_scope.
Notation "c ;;; k" := (bind c (fun _ => k))
  (at level 100, right associativity) : prog_scope.
Local Open Scope prog_scope.

(** Dereference a handle.  Python handles are always live; the failure
    branch is only reachable from a handle that was never allocated. *)
Definition read (l : loc) : M torch_tensor :=
  fun s => match heap s !! l with
           | Some t => Ok t s
           | None => Raise (RuntimeError "dangling tensor handle") s
           end.

(** Create a new tensor object. *)
Definition alloc (t : torch_tensor) : M loc :=
  fun s => let l := fresh (dom (heap s)) in
           Ok l (State (<[l := t]> (heap s)) (rng s)).

(** Overwrite the contents of an existing object. *)
Definition write (l : loc) (t : torch_tensor) : M unit :=
  fun s => Ok tt (State (<[l := t]> (heap s)) (rng s)).

(** Consume [n] uniform samples from the generator. *)
Definition draw (n : nat) : M (list Q) :=
  fun s => Ok (map (rng s) (seq 0 n))
              (State (heap s) (fun i => rng s (n + i)%nat)).

(** ** Python and torch primitives *)

Definition Qlt_bool (x y : Q) : bool := negb (Qle_bool y x).

(** [int(x)] on a float: truncation towards zero. *)
Definition py_int (x : Q) : Z := Z.quot (Qnum x) (Zpos (Qden x)).

Definition Qnat (n : nat) : Q := inject_Z (Z.of_nat n).

(** A slice bound: negative bounds count from the end, then the bound is
    clamped to [0, len]. *)
Definition py_bound (len i : Z) : Z :=
  Z.max 0 (Z.min len (if (i <? 0)%Z then (i + len)%Z else i)).

(** [l[start:stop]] *)
Definition py_slice {A} (l : list A) (start stop : Z) : list A :=
  let len := Z.of_nat (length l) in
  let a := py_bound len start in
  let b := py_bound len stop in
  take (Z.to_nat (b - a)) (drop (Z.to_nat a) l).

(** [x.abs().sum()] on the flattened data. *)
Definition sum_abs (d : list Q) : Q := foldr (fun x acc => Qabs x + acc) 0 d.

(** [torch.zeros_like(t)] *)
Definition zeros_like (t : torch_tensor) : torch_tensor :=
  with_data t (replicate (numel t) 0).

(** [a * b], elementwise. *)
Definition tensor_mul (a b : torch_tensor) : torch_tensor :=
  with_data a (zip_with Qmult (t_data a) (t_data b)).

(** [t.to(dt)] *)
Definition to_dtype (t : torch_tensor) (dt : dtype) : torch_tensor :=
  Tensor (t_shape t) dt (t_device t) (t_data t).

Definition key (w : list Q) (i : nat) : Q := nth i w 0.

(** [x] sorts strictly before [y]. *)
Definition precedes (descending : bool) (x y : Q) : bool :=
  if descending then Qlt_bool y x else Qlt_bool x y.

Fixpoint insert_by (descending : bool) (w : list Q) (i : nat) (l : list nat)
  : list nat :=
  match l with
  | [] => [i]
  | j :: l' =>
      if precedes descending (key w j) (key w i)
      then j :: insert_by descending w i l'
      else i :: l
  end.

(** [torch.argsort(w, descending=...)] on a 1-D tensor: the indices of [w]
    in sorted order.  torch leaves the order of equal keys open; the
    model breaks ties by position.  The proofs below use only that the
    result is a sorted permutation of the indices. *)
Definition argsort (w : list Q) (descending : bool) : list nat :=
  foldr (insert_by descending w) [] (seq 0 (length w)).

(** [d[idx] = v] for an index tensor [idx] and a scalar [v]. *)
Definition put_const (idx : list nat) (v : Q) (d : list Q) : list Q :=
  foldr (fun i acc => <[i := v]> acc) d idx.

(** [d[idx] = vals] for an index tensor [idx] and a tensor [vals]. *)
Definition put_values (idx : list nat) (vals : list Q) (d : list Q) : list Q :=
  foldr (fun iv acc => <[iv.1 := iv.2]> acc) d (zip idx vals).

(** [mask.view(-1)[idx] = v]: indexed assignment through a view, in place. *)
Definition index_put (mask : loc) (idx : list nat) (v : Q) : M unit :=
  m <- read mask ;;
  write mask (with_data m (put_const idx v (t_data m))).

(** [tensor *= c]: in place. *)
Definition imul (l : loc) (c : Q) : M unit :=
  t <- read l ;;
  write l (with_data t (map (fun x => x * c) (t_data t))).

(** [tensor /= c]: in place. *)
Definition idiv (l : loc) (c : Q) : M unit :=
  t <- read l ;;
  write l (with_data t (map (fun x => x / c) (t_data t))).

(** ** rescale_sum *)

Definition threshold : Q := 1 # 100000000.

Definition rescale_sum (tensor mask : loc) : M loc :=
  t <- read tensor ;;
  m <- read mask ;;
  let org_sum := sum_abs (t_data t) in
  let new_sum := sum_abs (t_data (tensor_mul t m)) in
  (if Qle_bool threshold org_sum && Qle_bool threshold new_sum
   then imul tensor (org_sum / new_sum)
   else ret tt) ;;;
  t' <- read tensor ;;
  m' <- read mask ;;
  alloc (tensor_mul t' m').

(** ** magnitude *)

(** [k = int(density * tensor.numel())] *)
Definition magnitude_k (t : torch_tensor) (density : Q) : Z :=
  py_int (density * Qnat (numel t)).

(** [topk = torch.argsort(w, descending=True)[:k]] with
    [w = tensor.abs().view(-1)]; the [w.float()] taken on the cpu keeps
    the values. *)
Definition magnitude_topk (t : torch_tensor) (density : Q) : list nat :=
  py_slice (argsort (map Qabs (t_data t)) true) 0 (magnitude_k t density).

Definition magnitude (tensor : loc) (density : Q) (rescale : bool) : M loc :=
  if Qle_bool 1 density then ret tensor else
  t <- read tensor ;;
  if negb (0 <? magnitude_k t density)%Z
  then raise (AssertionError "not gonna zero out the whole tensor buddy")
  else
    mask <- alloc (zeros_like t) ;;
    index_put mask (magnitude_topk t density) 1 ;;;
    if rescale then rescale_sum tensor mask
    else m <- read mask ;; alloc (tensor_mul t m).

(** ** magnitude_outliers *)

(** The number of low entries and of high entries to drop, [(n_bot, n_top)],
    after the adjustment for a negative [n_bot]. *)
Definition outlier_counts (t : torch_tensor) (density gamma : Q) : Z * Z :=
  let num_elems := Z.of_nat (numel t) in
  let target_n := py_int (density * Qnat (numel t)) in
  let n_top := py_int (gamma * Qnat (numel t)) in
  let n_bot := (num_elems - target_n - n_top)%Z in
  if (n_bot <? 0)%Z then (0%Z, (n_top + n_bot)%Z) else (n_bot, n_top).

(** [indices[n_bot:-n_top]] with
    [indices = torch.sort(w, descending=False).indices] *)
Definition outlier_band (t : torch_tensor) (density gamma : Q) : list nat :=
  let '(n_bot, n_top) := outlier_counts t density gamma in
  py_slice (argsort (map Qabs (t_data t)) false) n_bot (- n_top).

Definition magnitude_outliers
  (tensor : loc) (density : Q) (rescale : bool) (gamma : Q) : M loc :=
  if Qle_bool 1 density then ret tensor else
  t <- read tensor ;;
  mask <- alloc (zeros_like t) ;;
  index_put mask (outlier_band t density gamma) 1 ;;;
  if rescale then rescale_sum tensor mask
  else m <- read mask ;; alloc (tensor_mul t m).

(** ** torch.bernoulli *)

(** A probability computed in floating point: [None] is a value that is
    not a number (the result of 0/0). *)
Definition prob := option Q.

Definition valid_prob (p : prob) : bool :=
  match p with
  | Some q => Qle_bool 0 q && Qle_bool q 1
  | None => false
  end.

Definition sample (p : prob) (u : Q) : Q :=
  match p with
  | Some q => if Qlt_bool u q then 1 else 0
  | None => 0
  end.

(** The message of torch for a probability outside [0, 1]. *)
Definition invalid_probability : string :=
  "Expected p_in >= 0 && p_in <= 1 to be true, but got false.".

(** [torch.bernoulli(p)]: one independent draw per entry, returned as a
    new tensor; torch rejects an entry outside [0, 1]. *)
Definition torch_bernoulli (like : torch_tensor) (p : list prob) : M loc :=
  if forallb valid_prob p then
    us <- draw (length p) ;;
    alloc (with_data like (zip_with sample p us))
  else raise (RuntimeError invalid_probability).

(** The dtype in which sampling and ranking are carried out. *)
Definition work_dtype (t : torch_tensor) : dtype :=
  match t_device t, t_dtype t with
  | cuda, dt => dt
  | cpu, bfloat16 => bfloat16
  | cpu, _ => float32
  end.

(** ** bernoulli *)

Definition dtype_eqb (a b : dtype) : bool :=
  match a, b with
  | float16, float16 | bfloat16, bfloat16
  | float32, float32 | float64, float64 => true
  | _, _ => false
  end.

(** [res.to(dt)] on an object: the object itself when it already has the
    dtype, a converted copy otherwise. *)
Definition to_ (l : loc) (dt : dtype) : M loc :=
  r <- read l ;;
  if dtype_eqb (t_dtype r) dt then ret l else alloc (to_dtype r dt).

Definition bernoulli (tensor : loc) (density : Q) (rescale : bool) : M loc :=
  if Qle_bool 1 density then ret tensor else
  t <- read tensor ;;
  let wd := work_dtype t in
  mask <- torch_bernoulli (to_dtype t wd)
            (replicate (numel t) (Some density)) ;;
  m <- read mask ;;
  res <- alloc (tensor_mul (to_dtype t wd) m) ;;
  (if rescale then idiv res density else ret tt) ;;;
  to_ res (t_dtype t).

(** ** rank_magnitude *)

(** The message of the [ValueError], an f-string with two formatted
    floats. *)
Definition band_message (density epsilon : Q) : list fragment :=
  [ Text ("Error: density +- epsilon must be in the range (0, 1). "
          ++ "density + epsilon = ");
    Float (density + epsilon);
    Text ", density - epsilon = ";
    Float (density - epsilon) ].

(** [tensor.unsqueeze(0)]: a view with a leading dimension of size 1. *)
Definition unsqueeze0 (t : torch_tensor) : torch_tensor :=
  match t_shape t with
  | Shape1 n => Tensor (Shape2 1 n) (t_dtype t) (t_device t) (t_data t)
  | Shape2 _ _ => t   (* not taken: the caller unsqueezes rank 1 only *)
  end.

(** [s.squeeze(0)] on a shape: a leading dimension of size 1 is dropped. *)
Definition squeeze0_shape (s : shape) : shape :=
  match s with
  | Shape2 1 c => Shape1 c
  | _ => s
  end.

(** [res.squeeze(0)] *)
Definition squeeze0 (t : torch_tensor) : torch_tensor :=
  Tensor (squeeze0_shape (t_shape t)) (t_dtype t) (t_device t) (t_data t).

(** The rows of a matrix stored row-major. *)
Fixpoint chunks (rows cols : nat) (d : list Q) : list (list Q) :=
  match rows with
  | O => []
  | S r => take cols d :: chunks r cols (drop cols d)
  end.

Definition tensor_rows (t : torch_tensor) : list (list Q) :=
  match t_shape t with
  | Shape1 n => [t_data t]
  | Shape2 r c => chunks r c (t_data t)
  end.

(** [tensor.size(1)] *)
Definition size1 (t : torch_tensor) : nat :=
  match t_shape t with
  | Shape1 n => n
  | Shape2 _ c => c
  end.

(** [torch.arange(1, n + 1)] *)
Definition arange1 (n : nat) : list Q := map Qnat (seq 1 n).

(** One iteration of the ranking loop:
    [ranking_tensor[i][sorted_indices[i]] = torch.arange(1, size(1) + 1)],
    on a row of zeros. *)
Definition rank_row (cols : nat) (row_abs : list Q) : list Q :=
  put_values (argsort row_abs false) (arange1 cols)
             (replicate (length row_abs) 0).

Definition row_max (l : list Q) : Q :=
  match l with [] => 0 | x :: l' => foldl Qmax x l' end.

Definition row_min (l : list Q) : Q :=
  match l with [] => 0 | x :: l' => foldl Qmin x l' end.

(** Floating-point division: 0/0 is not a number.  The only division by
    zero the code can reach has a zero numerator. *)
Definition fdiv (x y : Q) : prob :=
  if Qeq_bool y 0 then None else Some (x / y).

(** [range_vals] of one row of ranks. *)
Definition range_val (ranks : list Q) : Q := row_max ranks - row_min ranks.

(** [final_probabilities] of one row of ranks. *)
Definition row_probabilities (density epsilon : Q) (ranks : list Q)
  : list prob :=
  map (fun r => match fdiv (r - row_min ranks) (range_val ranks) with
                | Some norm => Some ((density - epsilon) + norm * (2 * epsilon))
                | None => None
                end)
      ranks.

(** [final_probabilities] of the whole (2-D) tensor, row-major. *)
Definition final_probabilities (t : torch_tensor) (density epsilon : Q)
  : list prob :=
  concat (map (fun row => row_probabilities density epsilon
                            (rank_row (size1 t) (map Qabs row)))
              (tensor_rows t)).

(** [res / final_probabilities], on entries for which the draw succeeded. *)
Definition div_prob (x : Q) (p : prob) : Q :=
  match p with Some q => x / q | None => x end.

(** The message of torch for [max(dim=1)] over a dimension of size 0. *)
Definition empty_reduction : string :=
  "max(): Expected reduction dim 1 to have non-zero size.".

(** [density <= epsilon or density >= (1 - epsilon)] *)
Definition outside_band (density epsilon : Q) : bool :=
  Qle_bool density epsilon || Qle_bool (1 - epsilon) density.

(** [if len(tensor.shape) < 2: tensor = tensor.unsqueeze(0)]: the local
    name is rebound to a view, the object of the caller is not touched. *)
Definition rank_input (t : torch_tensor) : torch_tensor :=
  if (shape_rank (t_shape t) <? 2)%nat then unsqueeze0 t else t.

Definition rank_magnitude
  (tensor : loc) (density : Q) (rescale : bool) (epsilon : Q) : M loc :=
  if Qle_bool 1 density then ret tensor else
  if outside_band density epsilon
  then raise (ValueError (band_message density epsilon))
  else
    t <- read tensor ;;
    let wd := work_dtype t in
    let t2 := rank_input t in
    (* [max(dim=1)] refuses a reduction over a dimension of size zero *)
    if (size1 t2 =? 0)%nat
    then raise (IndexError empty_reduction)
    else
      let probs := final_probabilities t2 density epsilon in
      mask <- torch_bernoulli (to_dtype t2 wd) probs ;;
      m <- read mask ;;
      let res := tensor_mul (to_dtype t2 wd) m in
      let res := if rescale
                 then with_data res (zip_with div_prob (t_data res) probs)
                 else res in
      alloc (squeeze0 res).

(** ** sparsify *)

Definition sparsify
  (tensor : loc) (density : Q) (method : SparsificationMethod)
  (gamma : Q) (rescale : bool) (epsilon : Q) : M loc :=
  match method with
  | method_magnitude | method_consensus_ties =>
      magnitude tensor density rescale
  | method_random =>
      bernoulli tensor density rescale
  | method_magnitude_outliers =>
      magnitude_outliers tensor density rescale gamma
  | method_rank_magnitude_sampling =>
      rank_magnitude tensor density rescale epsilon
  | _ => raise (NotImplementedError method)
  end.

(** ** get_tall_mask *)

(** A boolean tensor. *)
Record bool_tensor := BoolTensor {
  b_shape : shape;
  b_data : list bool
}.

(** [delta.abs() > lambda_factor * (mixed_delta - delta).abs()]: the
    function reads its operands and returns a new boolean tensor; it
    touches neither the store nor the generator. *)
Definition get_tall_mask
  (delta : torch_tensor) (lambda_factor : Q) (mixed_delta : torch_tensor)
  : bool_tensor :=
  BoolTensor (t_shape delta)
    (zip_with (fun d md => Qlt_bool (lambda_factor * Qabs (md - d)) (Qabs d))
              (t_data delta) (t_data mixed_delta)).

(** ** Notions used by the statements *)

(** [floor(fraction * N)] for a tensor of [N] elements: the number of
    entries a density asks to keep, or an outlier fraction to drop. *)
Definition floor_count (t : torch_tensor) (fraction : Q) : Z :=
  Qfloor (fraction * Qnat (numel t)).

(** The tensor written by [zeros_like] followed by the indexed assignment
    of ones. *)
Definition mask_of (t : torch_tensor) (idx : list nat) : torch_tensor :=
  with_data t (put_const idx 1 (replicate (numel t) 0)).

(** [i] may stand before [j] in the order of [argsort w descending]. *)
Definition ordered (descending : bool) (w : list Q) (i j : nat) : Prop :=
  if descending then key w j <= key w i else key w i <= key w j.


(** Two elements vanish together. *)
Definition same_zero (x y : Q) : Prop := x == 0 <-> y == 0.

(** [sum(|tensor|)] and [sum(|tensor * mask|)] as [rescale_sum] computes
    them. *)
Definition org_sum (t : torch_tensor) : Q := sum_abs (t_data t).

Definition new_sum (t m : torch_tensor) : Q :=
  sum_abs (t_data (tensor_mul t m)).

(** The guard of the in-place scaling. *)
Definition rescales (t m : torch_tensor) : bool :=
  Qle_bool threshold (org_sum t) && Qle_bool threshold (new_sum t m).

(** The contents of a tensor after [tensor *= c]. *)
Definition scaled (t : torch_tensor) (c : Q) : torch_tensor :=
  with_data t (map (fun x => x * c) (t_data t)).


(** Both functions end alike once the indices to keep are known: build the
    mask, then multiply, through [rescale_sum] if asked. *)
Definition apply_mask
  (tensor : loc) (t : torch_tensor) (idx : list nat) (rescale : bool) : M loc :=
  mask <- alloc (zeros_like t) ;;
  index_put mask idx 1 ;;;
  if rescale then rescale_sum tensor mask
  else m <- read mask ;; alloc (tensor_mul t m).



(** A computation that never ends in the not-implemented error. *)
Definition implemented {A} (c : M A) : Prop :=
  forall s m s', c s <> Raise (NotImplementedError m) s'.

(** Every tensor object of [s] is found unchanged in [s']. *)
Definition preserved (s s' : state) : Prop := heap s ⊆ heap s'.

(** A call that returns a newly created tensor and leaves every object
    of the state it started from as it was, or raises without effect. *)
Definition pure_call (s : state) (o : outcome loc) : Prop :=
  match o with
  | Ok r s' => heap s !! r = None /\ preserved s s'
  | Raise _ s' => s' = s
  end.

(** The same, but for the object behind one handle, about which nothing
    is said. *)
Definition pure_call_except (tensor : loc) (s : state) (o : outcome loc)
  : Prop :=
  match o with
  | Ok r s' =>
      heap s !! r = None /\
      forall l v, l <> tensor -> heap s !! l = Some v -> heap s' !! l = Some v
  | Raise _ s' => s' = s
  end.

(** The state a call leaves behind. *)
Definition final_state {A} (o : outcome A) : state :=
  match o with Ok _ s' => s' | Raise _ s' => s' end.

(** The tensor a call returned, looked up in the state it left. *)
Definition returned (o : outcome loc) : option torch_tensor :=
  match o with
  | Ok r s' => heap s' !! r
  | Raise _ _ => None
  end.

(** A state holding one tensor, at handle 0. *)
Definition single (t : torch_tensor) : state :=
  State {[ 0%nat := t ]} (fun i => if Nat.even i then 1 # 4 else 3 # 4).

Definition vector (d : list Q) : torch_tensor :=
  Tensor (Shape1 (length d)) float32 cpu d.

(** A state holding a tensor at handle 0 and a mask at handle 1. *)
Definition with_mask (t m : torch_tensor) : state :=
  State (<[ 1%nat := m ]> {[ 0%nat := t ]})
        (fun i => if Nat.even i then 1 # 4 else 3 # 4).

(** * Verification *)

(** ** Symbolic execution of the monad *)

Lemma bind_ret {A B} (a : A) (k : A -> M B) s : bind (ret a) k s = k a s.
Proof. reflexivity. Qed.

Lemma bind_raise {A B} (e : exn) (k : A -> M B) s :
  bind (raise e) k s = Raise e s.
Proof. reflexivity. Qed.

Lemma bind_bind {A B C} (c : M A) (f : A -> M B) (g : B -> M C) s :
  bind (bind c f) g s = bind c (fun a => bind (f a) g) s.
Proof. unfold bind. destruct (c s); reflexivity. Qed.

Lemma bind_read {B} l t (k : torch_tensor -> M B) s :
  heap s !! l = Some t -> bind (read l) k s = k t s.
Proof. intros H. unfold bind, read. rewrite H. reflexivity. Qed.

Lemma bind_alloc {B} t (k : loc -> M B) s :
  bind (alloc t) k s =
  k (fresh (dom (heap s)))
    (State (<[fresh (dom (heap s)) := t]> (heap s)) (rng s)).
Proof. reflexivity. Qed.

Lemma bind_write {B} l t (k : unit -> M B) s :
  bind (write l t) k s = k tt (State (<[l := t]> (heap s)) (rng s)).
Proof. reflexivity. Qed.

Lemma bind_draw {B} n (k : list Q -> M B) s :
  bind (draw n) k s =
  k (map (rng s) (seq 0 n)) (State (heap s) (fun i => rng s (n + i)%nat)).
Proof. reflexivity. Qed.

Lemma fresh_lookup (h : gmap nat torch_tensor) : h !! fresh (dom h) = None.
Proof. apply not_elem_of_dom, is_fresh. Qed.

Lemma index_put_fresh {B} t idx (k : unit -> M B) h r :
  bind (index_put (fresh (dom h)) idx 1) k
       (State (<[fresh (dom h) := zeros_like t]> h) r) =
  k tt (State (<[fresh (dom h) := mask_of t idx]> h) r).
Proof.
  unfold index_put. rewrite bind_bind.
  rewrite (bind_read _ (zeros_like t)) by apply lookup_insert_eq.
  rewrite bind_write. cbn [heap rng]. rewrite insert_insert_eq.
  reflexivity.
Qed.

Lemma magnitude_identity tensor density rescale s :
  Qle_bool 1 density = true -> magnitude tensor density rescale s = Ok tensor s.
Proof. intros H. unfold magnitude. rewrite H. reflexivity. Qed.

(** ** Comparisons and truncation *)

Lemma Qlt_bool_true x y : Qlt_bool x y = true <-> x < y.
Proof.
  unfold Qlt_bool. rewrite negb_true_iff. split.
  - intros H. apply Qnot_le_lt. rewrite <- Qle_bool_iff. congruence.
  - intros H. destruct (Qle_bool y x) eqn:E; [|reflexivity].
    apply Qle_bool_iff in E. exfalso. exact (Qlt_not_le _ _ H E).
Qed.

Lemma Qlt_bool_false x y : Qlt_bool x y = false <-> y <= x.
Proof.
  unfold Qlt_bool. rewrite negb_false_iff. apply Qle_bool_iff.
Qed.

Lemma Qle_bool_false x y : Qle_bool x y = false <-> y < x.
Proof.
  rewrite <- Qlt_bool_true. unfold Qlt_bool.
  destruct (Qle_bool x y); simpl; split; congruence.
Qed.

(** On non-negative numbers [int] is the floor. *)
Lemma py_int_floor x : 0 <= x -> py_int x = Qfloor x.
Proof.
  destruct x as [n d]. unfold Qle, py_int, Qfloor. simpl. intros H.
  apply Z.quot_div_nonneg; lia.
Qed.

Lemma Qnat_nonneg n : 0 <= Qnat n.
Proof. unfold Qnat, Qle. simpl. lia. Qed.

Lemma Qfloor_nat n : Qfloor (Qnat n) = Z.of_nat n.
Proof. unfold Qnat. apply Qfloor_Z. Qed.

(** [floor(density * N)] lies in [0, N] for a density in [0, 1]. *)
Lemma floor_fraction_bounds density n :
  0 <= density -> density <= 1 ->
  (0 <= Qfloor (density * Qnat n) <= Z.of_nat n)%Z.
Proof.
  intros H0 H1. split.
  - change 0%Z with (Qfloor 0). apply Qfloor_resp_le.
    apply Qmult_le_0_compat; [assumption | apply Qnat_nonneg].
  - rewrite <- (Qfloor_nat n). apply Qfloor_resp_le.
    rewrite <- (Qmult_1_l (Qnat n)) at 2.
    apply Qmult_le_compat_r; [assumption | apply Qnat_nonneg].
Qed.

(** ** Slices *)

Lemma py_slice_prefix {A} (l : list A) k :
  (0 <= k)%Z -> py_slice l 0 k = take (Z.to_nat k) l.
Proof.
  intros Hk. unfold py_slice, py_bound.
  replace (0 <? 0)%Z with false by reflexivity.
  replace (k <? 0)%Z with false by (symmetry; apply Z.ltb_ge; lia).
  replace (Z.max 0 (Z.min (Z.of_nat (length l)) 0)) with 0%Z by lia.
  rewrite Z.sub_0_r. change (Z.to_nat 0) with 0%nat. rewrite drop_0.
  destruct (Z.le_ge_cases k (Z.of_nat (length l))) as [H|H].
  - f_equal. lia.
  - rewrite !take_ge by lia. reflexivity.
Qed.



(** ** argsort returns a sorted permutation of the indices *)

Section Argsort.
Variable descending : bool.
Variable w : list Q.

Lemma precedes_ordered i j :
  precedes descending (key w i) (key w j) = true -> ordered descending w i j.
Proof.
  unfold precedes, ordered. destruct descending;
    rewrite Qlt_bool_true; apply Qlt_le_weak.
Qed.

Lemma not_precedes_ordered i j :
  precedes descending (key w j) (key w i) = false -> ordered descending w i j.
Proof.
  unfold precedes, ordered. destruct descending;
    rewrite Qlt_bool_false; trivial.
Qed.

Lemma ordered_trans i j k :
  ordered descending w i j -> ordered descending w j k ->
  ordered descending w i k.
Proof.
  unfold ordered. destruct descending; intros H1 H2;
    eapply Qle_trans; eassumption.
Qed.

Lemma insert_by_perm i l :
  Permutation (insert_by descending w i l) (i :: l).
Proof.
  induction l as [|j l IH]; simpl.
  - reflexivity.
  - destruct (precedes descending (key w j) (key w i)).
    + rewrite IH. apply perm_swap.
    + reflexivity.
Qed.

Lemma insert_by_sorted i l :
  StronglySorted (ordered descending w) l ->
  StronglySorted (ordered descending w) (insert_by descending w i l).
Proof.
  induction 1 as [|j l Hl IH Hj]; simpl.
  - repeat constructor.
  - destruct (precedes descending (key w j) (key w i)) eqn:E.
    + constructor; [exact IH|].
      rewrite (insert_by_perm i l). constructor; [|exact Hj].
      apply precedes_ordered, E.
    + constructor; [constructor; assumption|].
      apply not_precedes_ordered in E.
      constructor; [exact E|].
      eapply Forall_impl; [exact Hj|].
      intros k Hk. eapply ordered_trans; eassumption.
Qed.

Lemma argsort_perm : Permutation (argsort w descending) (seq 0 (length w)).
Proof.
  unfold argsort. induction (seq 0 (length w)) as [|i l IH]; simpl.
  - reflexivity.
  - rewrite insert_by_perm. constructor. exact IH.
Qed.

Lemma argsort_sorted :
  StronglySorted (ordered descending w) (argsort w descending).
Proof.
  unfold argsort. induction (seq 0 (length w)) as [|i l IH]; simpl.
  - constructor.
  - apply insert_by_sorted, IH.
Qed.

Lemma argsort_length : length (argsort w descending) = length w.
Proof. rewrite (Permutation_length argsort_perm). apply length_seq. Qed.

Lemma argsort_NoDup : NoDup (argsort w descending).
Proof. rewrite argsort_perm. apply NoDup_seq. Qed.

Lemma argsort_range i : i ∈ argsort w descending <-> (i < length w)%nat.
Proof.
  rewrite argsort_perm, list_elem_of_In, in_seq. lia.
Qed.

(** Every index of a prefix of the sorted order may stand before every
    index of the matching suffix. *)
Lemma argsort_split n i j :
  i ∈ take n (argsort w descending) ->
  j ∈ drop n (argsort w descending) ->
  ordered descending w i j.
Proof.
  intros Hi Hj. pose proof argsort_sorted as H.
  rewrite <- (take_drop n (argsort w descending)) in H.
  revert Hi H. generalize (take n (argsort w descending)) as p.
  induction p as [|x p IH]; intros Hi H.
  - inversion Hi.
  - simpl in H. apply StronglySorted_inv in H as [H1 H2].
    apply elem_of_cons in Hi as [->|Hi].
    + rewrite Forall_forall in H2. apply H2.
      apply elem_of_app. right. exact Hj.
    + apply IH; assumption.
Qed.

End Argsort.

(** ** Indexed assignment and non-zero counts *)

Lemma key_lookup d i x : d !! i = Some x -> key d i = x.
Proof. intros H. unfold key. rewrite nth_lookup, H. reflexivity. Qed.

Lemma key_lookup_lt d i : (i < length d)%nat -> d !! i = Some (key d i).
Proof.
  intros H. destruct (lookup_lt_is_Some_2 d i H) as [x Hx].
  rewrite (key_lookup _ _ _ Hx). exact Hx.
Qed.


Lemma put_const_length idx v d : length (put_const idx v d) = length d.
Proof.
  induction idx as [|i idx IH]; simpl; [reflexivity|].
  rewrite length_insert. exact IH.
Qed.

Lemma put_const_hit idx v d i :
  i ∈ idx -> (i < length d)%nat -> put_const idx v d !! i = Some v.
Proof.
  induction idx as [|j idx IH]; simpl; intros Hi Hlen.
  - inversion Hi.
  - destruct (decide (j = i)) as [->|Hne].
    + apply list_lookup_insert_eq. rewrite put_const_length. exact Hlen.
    + rewrite list_lookup_insert_ne by exact Hne.
      apply IH; [|exact Hlen].
      apply elem_of_cons in Hi as [->|Hi]; [congruence|exact Hi].
Qed.

Lemma put_const_miss idx v d i :
  i ∉ idx -> put_const idx v d !! i = d !! i.
Proof.
  induction idx as [|j idx IH]; simpl; intros Hi; [reflexivity|].
  apply not_elem_of_cons in Hi as [Hne Hi].
  rewrite list_lookup_insert_ne by congruence. apply IH, Hi.
Qed.





Lemma Qmult_zero_iff x y : x * y == 0 <-> x == 0 \/ y == 0.
Proof.
  split.
  - intros H. destruct (Qeq_dec x 0) as [Hx|Hx]; [now left|right].
    eapply Qmult_integral_l; eassumption.
  - intros [H|H]; rewrite H; ring.
Qed.


(** ** Absolute-value sums *)

Lemma sum_abs_cons x d : sum_abs (x :: d) = Qabs x + sum_abs d.
Proof. reflexivity. Qed.

Lemma sum_abs_equiv d1 d2 : Forall2 Qeq d1 d2 -> sum_abs d1 == sum_abs d2.
Proof.
  induction 1 as [|x y d1 d2 Hxy _ IH]; [reflexivity|].
  rewrite !sum_abs_cons, Hxy, IH. reflexivity.
Qed.

Lemma sum_abs_scale c d :
  0 <= c -> sum_abs (map (fun x => x * c) d) == sum_abs d * c.
Proof.
  intros Hc. induction d as [|x d IH]; [simpl; ring|].
  cbn [map]. rewrite !sum_abs_cons, IH, Qabs_Qmult, (Qabs_pos c Hc). ring.
Qed.

Lemma zip_with_scale c a b :
  Forall2 Qeq (zip_with Qmult (map (fun x => x * c) a) b)
              (map (fun x => x * c) (zip_with Qmult a b)).
Proof.
  revert b. induction a as [|x a IH]; intros [|y b]; simpl; constructor.
  - ring.
  - apply IH.
Qed.

Lemma same_zero_scale c d :
  ~ c == 0 -> Forall2 same_zero (map (fun x => x * c) d) d.
Proof.
  intros Hc. induction d as [|x d IH]; simpl; constructor; [|exact IH].
  unfold same_zero. rewrite Qmult_zero_iff. tauto.
Qed.

Lemma same_zero_equiv d1 d2 : Forall2 Qeq d1 d2 -> Forall2 same_zero d1 d2.
Proof.
  intros H. eapply Forall2_impl; [exact H|].
  intros x y E. unfold same_zero. rewrite E. reflexivity.
Qed.

(** ** rescale_sum, step by step *)

Lemma rescale_sum_run_unscaled tensor mask t m s :
  heap s !! tensor = Some t -> heap s !! mask = Some m ->
  rescales t m = false ->
  rescale_sum tensor mask s =
  Ok (fresh (dom (heap s)))
     (State (<[fresh (dom (heap s)) := tensor_mul t m]> (heap s)) (rng s)).
Proof.
  intros Ht Hm Hc. unfold rescale_sum.
  rewrite (bind_read _ t) by assumption.
  rewrite (bind_read _ m) by assumption.
  unfold rescales, org_sum, new_sum in Hc. rewrite Hc, bind_ret.
  rewrite (bind_read _ t) by assumption.
  rewrite (bind_read _ m) by assumption.
  reflexivity.
Qed.

Lemma rescale_sum_run_scaled tensor mask t m s :
  heap s !! tensor = Some t -> heap s !! mask = Some m ->
  rescales t m = true ->
  rescale_sum tensor mask s =
  Ok (fresh (dom (<[tensor := scaled t (org_sum t / new_sum t m)]> (heap s))))
     (State
        (<[fresh (dom (<[tensor := scaled t (org_sum t / new_sum t m)]> (heap s)))
           := tensor_mul (scaled t (org_sum t / new_sum t m))
                (if decide (mask = tensor)
                 then scaled t (org_sum t / new_sum t m) else m)]>
           (<[tensor := scaled t (org_sum t / new_sum t m)]> (heap s)))
        (rng s)).
Proof.
  intros Ht Hm Hc.
  set (t' := scaled t (org_sum t / new_sum t m)).
  set (h' := <[tensor := t']> (heap s)).
  set (m' := if decide (mask = tensor) then t' else m).
  unfold rescale_sum.
  rewrite (bind_read _ t) by assumption.
  rewrite (bind_read _ m) by assumption.
  unfold rescales, org_sum, new_sum in Hc. rewrite Hc.
  unfold imul. rewrite bind_bind.
  rewrite (bind_read _ t) by assumption.
  rewrite bind_write.
  rewrite (bind_read _ t') by apply lookup_insert_eq.
  rewrite (bind_read _ m').
  - reflexivity.
  - cbn [heap]. subst m'. destruct (decide (mask = tensor)) as [->|Hne].
    + apply lookup_insert_eq.
    + rewrite lookup_insert_ne by congruence. exact Hm.
Qed.

Lemma rescales_true t m :
  rescales t m = true <-> threshold <= org_sum t /\ threshold <= new_sum t m.
Proof. unfold rescales. rewrite andb_true_iff, !Qle_bool_iff. reflexivity. Qed.

Lemma rescales_false t m :
  rescales t m = false <-> org_sum t < threshold \/ new_sum t m < threshold.
Proof.
  unfold rescales. rewrite andb_false_iff, !Qle_bool_false. reflexivity.
Qed.

Lemma threshold_pos : 0 < threshold.
Proof. reflexivity. Qed.

(** The scaling factor is positive whenever the scaling is applied. *)
Lemma ratio_pos t m : rescales t m = true -> 0 < org_sum t / new_sum t m.
Proof.
  intros [Ho Hn]%rescales_true.
  apply Qlt_shift_div_l.
  - eapply Qlt_le_trans; [apply threshold_pos | exact Hn].
  - rewrite Qmult_0_l. eapply Qlt_le_trans; [apply threshold_pos | exact Ho].
Qed.

Lemma ratio_new_sum t m :
  rescales t m = true -> new_sum t m * (org_sum t / new_sum t m) == org_sum t.
Proof.
  intros [Ho Hn]%rescales_true.
  rewrite Qmult_div_r; [reflexivity|].
  intros E. rewrite E in Hn. exact (Qlt_not_le _ _ threshold_pos Hn).
Qed.

Lemma same_zero_trans d1 d2 d3 :
  Forall2 same_zero d1 d2 -> Forall2 same_zero d2 d3 -> Forall2 same_zero d1 d3.
Proof.
  intros H. revert d3. induction H as [|x y d1 d2 Hxy _ IH];
    intros d3 H3; inversion H3; subst; constructor.
  - unfold same_zero in *. tauto.
  - apply IH. assumption.
Qed.

Lemma same_zero_refl d : Forall2 same_zero d d.
Proof. induction d; constructor; [unfold same_zero; tauto | assumption]. Qed.

(** A 0/1 tensor is its own square. *)
Lemma binary_square d :
  Forall (fun x => x == 0 \/ x == 1) d -> Forall2 Qeq (zip_with Qmult d d) d.
Proof.
  induction 1 as [|x d Hx _ IH]; simpl; constructor; [|exact IH].
  destruct Hx as [->| ->]; ring.
Qed.

Lemma scale_by_one c d : c == 1 -> Forall2 Qeq (map (fun x => x * c) d) d.
Proof.
  intros Hc. induction d as [|x d IH]; simpl; constructor; [|exact IH].
  rewrite Hc. ring.
Qed.

Lemma zip_with_equiv a a' b b' :
  Forall2 Qeq a a' -> Forall2 Qeq b b' ->
  Forall2 Qeq (zip_with Qmult a b) (zip_with Qmult a' b').
Proof.
  intros Ha. revert b b'. induction Ha as [|x x' a a' Hx _ IH];
    intros b b' Hb; destruct Hb as [|y y' b b' Hy Hb]; simpl; constructor.
  - rewrite Hx, Hy. reflexivity.
  - apply IH, Hb.
Qed.

Lemma Qeq_list_trans (d1 d2 d3 : list Q) :
  Forall2 Qeq d1 d2 -> Forall2 Qeq d2 d3 -> Forall2 Qeq d1 d3.
Proof.
  intros H. revert d3. induction H as [|x y d1 d2 Hxy _ IH];
    intros d3 H3; inversion H3; subst; constructor.
  - etransitivity; eassumption.
  - apply IH. assumption.
Qed.

Lemma Qeq_list_sym (d1 d2 : list Q) : Forall2 Qeq d1 d2 -> Forall2 Qeq d2 d1.
Proof. induction 1; constructor; [symmetry|]; assumption. Qed.

(** The data of the tensor returned by [rescale_sum] when the scaling is
    applied, also when the mask is the tensor itself. *)
Lemma rescaled_data t m c :
  (m = t -> Forall (fun x => x == 0 \/ x == 1) (t_data t) /\ c == 1) ->
  forall m', (m' = scaled t c /\ m = t) \/ m' = m ->
  Forall2 Qeq (t_data (tensor_mul (scaled t c) m'))
              (map (fun x => x * c) (t_data (tensor_mul t m))).
Proof.
  intros Halias m' [[-> ->]| ->]; simpl.
  - destruct (Halias eq_refl) as [Hb Hc].
    pose proof (scale_by_one c (t_data t) Hc) as H1.
    eapply Qeq_list_trans; [apply zip_with_equiv; exact H1|].
    apply Qeq_list_sym. apply scale_by_one, Hc.
  - apply zip_with_scale.
Qed.

Lemma ratio_alias t :
  Forall (fun x => x == 0 \/ x == 1) (t_data t) ->
  rescales t t = true -> org_sum t / new_sum t t == 1.
Proof.
  intros Hb Hc. pose proof Hc as [Ho _]%rescales_true.
  assert (E : new_sum t t == org_sum t).
  { unfold new_sum, org_sum. simpl. apply sum_abs_equiv, binary_square, Hb. }
  rewrite E. apply Qmult_inv_r.
  intros Z. rewrite Z in Ho. exact (Qlt_not_le _ _ threshold_pos Ho).
Qed.

(** C8: [rescale_sum] returns [tensor * mask], scaled by
    [sum(|tensor|) / sum(|tensor * mask|)] when both sums exceed the
    threshold 1e-8, so that the absolute-value sum of the output is the
    one of the original; it returns [tensor * mask] unscaled when either
    sum is below the threshold; in both cases the output vanishes exactly
    where [tensor * mask] does. *)
Theorem rescale_sum_preserves_sum s tensor mask t m :
  heap s !! tensor = Some t ->
  heap s !! mask = Some m ->
  t_shape m = t_shape t ->
  numel m = numel t ->
  Forall (fun x => x == 0 \/ x == 1) (t_data m) ->
  exists r s' out,
    rescale_sum tensor mask s = Ok r s' /\
    heap s' !! r = Some out /\
    t_shape out = t_shape t /\
    (threshold < org_sum t -> threshold < new_sum t m ->
       Forall2 Qeq (t_data out)
         (map (fun x => x * (org_sum t / new_sum t m))
              (t_data (tensor_mul t m))) /\
       sum_abs (t_data out) == org_sum t) /\
    (org_sum t < threshold \/ new_sum t m < threshold ->
       out = tensor_mul t m) /\
    Forall2 same_zero (t_data out) (t_data (tensor_mul t m)).
Proof.
  intros Ht Hm Hshape Hnumel Hbin.
  destruct (rescales t m) eqn:Hc.
  - pose proof (rescale_sum_run_scaled tensor mask t m s Ht Hm Hc) as Hrun.
    set (c := org_sum t / new_sum t m) in *.
    set (m' := if decide (mask = tensor) then scaled t c else m) in *.
    assert (Hdata : Forall2 Qeq (t_data (tensor_mul (scaled t c) m'))
                      (map (fun x => x * c) (t_data (tensor_mul t m)))).
    { apply rescaled_data.
      - intros ->. split; [exact Hbin | apply ratio_alias; assumption].
      - subst m'. destruct (decide (mask = tensor)) as [->|Hne].
        + left. split; [reflexivity | congruence].
        + right. reflexivity. }
    eexists _, _, _. split; [exact Hrun|].
    split; [apply lookup_insert_eq|].
    split; [reflexivity|].
    split; [|split].
    + intros _ _. split; [exact Hdata|].
      rewrite (sum_abs_equiv _ _ Hdata), sum_abs_scale.
      * apply ratio_new_sum, Hc.
      * apply Qlt_le_weak, ratio_pos, Hc.
    + intros Hlow. apply rescales_false in Hlow. congruence.
    + eapply same_zero_trans; [apply same_zero_equiv, Hdata|].
      apply same_zero_scale. intros Z.
      pose proof (ratio_pos t m Hc) as Hpos. fold c in Hpos.
      rewrite Z in Hpos. exact (Qlt_irrefl _ Hpos).
  - rewrite (rescale_sum_run_unscaled tensor mask t m s Ht Hm Hc).
    eexists _, _, _. split; [reflexivity|].
    split; [apply lookup_insert_eq|].
    split; [reflexivity|].
    split; [|split].
    + intros Ho Hn. apply rescales_false in Hc as [Hc|Hc].
      * exfalso. exact (Qlt_irrefl _ (Qlt_trans _ _ _ Ho Hc)).
      * exfalso. exact (Qlt_irrefl _ (Qlt_trans _ _ _ Hn Hc)).
    + reflexivity.
    + apply same_zero_refl.
Qed.

Lemma rescale_sum_preserves_sum_witness :
  exists r s' out,
    rescale_sum 0%nat 1%nat
      (with_mask (vector [1; -2; 3; -4]) (vector [0; 0; 1; 1])) = Ok r s' /\
    heap s' !! r = Some out /\
    sum_abs (t_data out) == 10.
Proof.
  destruct (rescale_sum_preserves_sum
              (with_mask (vector [1; -2; 3; -4]) (vector [0; 0; 1; 1]))
              0%nat 1%nat (vector [1; -2; 3; -4]) (vector [0; 0; 1; 1]))
    as (r & s' & out & Hrun & Hout & _ & Hscaled & _).
  - reflexivity.
  - reflexivity.
  - reflexivity.
  - reflexivity.
  - repeat constructor; (left; reflexivity) || (right; reflexivity).
  - exists r, s', out. split; [exact Hrun|]. split; [exact Hout|].
    destruct Hscaled as [_ Hsum]; [reflexivity | reflexivity |].
    rewrite Hsum. reflexivity.
Defined.

(** ** Masking: the common tail of magnitude and magnitude_outliers *)

Lemma magnitude_unfold tensor t density rescale s :
  heap s !! tensor = Some t ->
  Qle_bool 1 density = false ->
  (0 <? magnitude_k t density)%Z = true ->
  magnitude tensor density rescale s =
  apply_mask tensor t (magnitude_topk t density) rescale s.
Proof.
  intros Ht Hd Hk. unfold magnitude. rewrite Hd.
  rewrite (bind_read _ t) by assumption. rewrite Hk. reflexivity.
Qed.

Lemma magnitude_outliers_unfold tensor t density rescale gamma s :
  heap s !! tensor = Some t ->
  Qle_bool 1 density = false ->
  magnitude_outliers tensor density rescale gamma s =
  apply_mask tensor t (outlier_band t density gamma) rescale s.
Proof.
  intros Ht Hd. unfold magnitude_outliers. rewrite Hd.
  rewrite (bind_read _ t) by assumption. reflexivity.
Qed.

Lemma fresh_insert_None (h : gmap nat torch_tensor) l v :
  h !! fresh (dom (<[l := v]> h)) = None.
Proof.
  pose proof (fresh_lookup (<[l := v]> h)) as H.
  apply lookup_insert_None in H. tauto.
Qed.

(** What [apply_mask] returns and what it leaves alone. *)
Lemma apply_mask_spec s tensor t idx rescale :
  heap s !! tensor = Some t ->
  exists r s' out,
    apply_mask tensor t idx rescale s = Ok r s' /\
    heap s' !! r = Some out /\
    heap s !! r = None /\
    rng s' = rng s /\
    t_shape out = t_shape t /\
    Forall2 same_zero (t_data out) (t_data (tensor_mul t (mask_of t idx))) /\
    (rescale = false -> out = tensor_mul t (mask_of t idx)) /\
    (forall l v, l <> tensor -> heap s !! l = Some v ->
                 heap s' !! l = Some v) /\
    (rescale = false -> heap s' !! tensor = Some t).
Proof.
  intros Ht. unfold apply_mask. rewrite bind_alloc, index_put_fresh.
  cbv beta.
  set (mask := fresh (dom (heap s))).
  set (mv := mask_of t idx).
  set (h1 := <[mask := mv]> (heap s)).
  assert (Hmask : heap s !! mask = None) by apply fresh_lookup.
  assert (Hne : mask <> tensor) by (intros E; congruence).
  assert (Ht1 : h1 !! tensor = Some t)
    by (subst h1; rewrite lookup_insert_ne by exact Hne; exact Ht).
  assert (Hm1 : h1 !! mask = Some mv) by apply lookup_insert_eq.
  destruct rescale; fold h1.
  - destruct (rescales t mv) eqn:Hc.
    + rewrite (rescale_sum_run_scaled tensor mask t mv (State h1 (rng s))
                 Ht1 Hm1 Hc).
      cbn [heap rng]. rewrite decide_False by exact Hne.
      set (c := org_sum t / new_sum t mv).
      set (h2 := <[tensor := scaled t c]> h1).
      eexists _, _, _. split; [reflexivity|]. cbn [heap rng].
      split; [apply lookup_insert_eq|].
      assert (Hr : h1 !! fresh (dom h2) = None) by apply fresh_insert_None.
      subst h1. apply lookup_insert_None in Hr as [Hr1 Hr2].
      split; [exact Hr1|]. split; [reflexivity|]. split; [reflexivity|].
      split; [|split; [discriminate|split; [|discriminate]]].
      * eapply same_zero_trans; [apply same_zero_equiv, zip_with_scale|].
        apply same_zero_scale. intros Z.
        pose proof (ratio_pos t mv Hc) as Hpos. fold c in Hpos.
        rewrite Z in Hpos. exact (Qlt_irrefl _ Hpos).
      * intros l v Hl Hv.
        assert (l <> mask) by (intros ->; congruence).
        assert (l <> fresh (dom h2)) by (intros ->; congruence).
        subst h2. rewrite !lookup_insert_ne by congruence. exact Hv.
    + rewrite (rescale_sum_run_unscaled tensor mask t mv (State h1 (rng s))
                 Ht1 Hm1 Hc).
      cbn [heap rng].
      eexists _, _, _. split; [reflexivity|]. cbn [heap rng].
      split; [apply lookup_insert_eq|].
      assert (Hr : heap s !! fresh (dom h1) = None) by apply fresh_insert_None.
      split; [exact Hr|]. split; [reflexivity|]. split; [reflexivity|].
      split; [apply same_zero_refl|].
      split; [discriminate|split; [|discriminate]].
      intros l v Hl Hv.
      assert (l <> mask) by (intros ->; congruence).
      assert (l <> fresh (dom h1)) by (intros ->; congruence).
      subst h1. rewrite !lookup_insert_ne by congruence. exact Hv.
  - rewrite (bind_read _ mv) by exact Hm1.
    eexists _, _, _. split; [reflexivity|]. cbn [heap rng].
    split; [apply lookup_insert_eq|].
    assert (Hr : heap s !! fresh (dom h1) = None) by apply fresh_insert_None.
    split; [exact Hr|]. split; [reflexivity|]. split; [reflexivity|].
    split; [apply same_zero_refl|].
    split; [reflexivity|].
    assert (Hpres : forall l v, heap s !! l = Some v ->
              <[fresh (dom h1) := tensor_mul t mv]> h1 !! l = Some v).
    { intros l v Hv.
      assert (l <> mask) by (intros ->; congruence).
      assert (l <> fresh (dom h1)) by (intros ->; congruence).
      subst h1. rewrite !lookup_insert_ne by congruence. exact Hv. }
    split; [intros l v _; apply Hpres | intros _; apply Hpres, Ht].
Qed.

(** ** Pointwise view of a masked tensor *)

Lemma key_map_abs d i : key (map Qabs d) i = Qabs (key d i).
Proof.
  unfold key. revert i. induction d as [|x d IH]; intros [|i]; simpl;
    try reflexivity. apply IH.
Qed.

Lemma key_mask idx n i :
  (i < n)%nat ->
  key (put_const idx 1 (replicate n 0)) i = if decide (i ∈ idx) then 1 else 0.
Proof.
  intros Hi. apply key_lookup. destruct (decide (i ∈ idx)) as [Hin|Hout].
  - apply put_const_hit; [exact Hin|]. rewrite length_replicate. exact Hi.
  - rewrite put_const_miss by exact Hout.
    apply lookup_replicate. split; [reflexivity | exact Hi].
Qed.

Lemma key_mul a b i :
  (i < length a)%nat -> (i < length b)%nat ->
  key (zip_with Qmult a b) i = key a i * key b i.
Proof.
  intros Ha Hb. apply key_lookup. rewrite lookup_zip_with.
  rewrite (key_lookup_lt a i Ha), (key_lookup_lt b i Hb). reflexivity.
Qed.







(** ** magnitude: the indices kept *)

Section TopK.
Variable t : torch_tensor.
Variable density : Q.
Hypothesis density_pos : 0 < density.
Hypothesis density_lt_1 : density < 1.

Lemma magnitude_k_floor :
  magnitude_k t density = floor_count t density.
Proof.
  apply py_int_floor. apply Qmult_le_0_compat.
  - apply Qlt_le_weak, density_pos.
  - apply Qnat_nonneg.
Qed.

Lemma magnitude_k_bounds :
  (0 <= magnitude_k t density <= Z.of_nat (numel t))%Z.
Proof.
  rewrite magnitude_k_floor.
  apply floor_fraction_bounds; apply Qlt_le_weak; assumption.
Qed.

Lemma magnitude_topk_take :
  magnitude_topk t density =
  take (Z.to_nat (magnitude_k t density))
       (argsort (map Qabs (t_data t)) true).
Proof. apply py_slice_prefix, magnitude_k_bounds. Qed.

Lemma magnitude_topk_length :
  Z.of_nat (length (magnitude_topk t density)) = magnitude_k t density.
Proof.
  rewrite magnitude_topk_take, length_take, argsort_length, length_map.
  pose proof magnitude_k_bounds. unfold numel in *. lia.
Qed.



End TopK.

(** ** magnitude *)






(** ** magnitude_outliers *)

Section OutlierBand.
Variable t : torch_tensor.
Variables density gamma : Q.
Hypothesis density_pos : 0 < density.
Hypothesis density_lt_1 : density < 1.
Hypothesis gamma_nonneg : 0 <= gamma.






End OutlierBand.

(** C1 fails on the code whenever [floor(gamma * N) = 0], which includes
    the default [gamma = 0] of [sparsify]: the target is 2 of the 4
    entries, [n_bot = 2] and [n_top = 0], the slice [indices[2:-0]] is
    empty, and the output has no non-zero entry. *)
Theorem magnitude_outliers_zero_gamma_keeps_nothing :
  floor_count (vector [1; -2; 3; -4]) (1 # 2) = 2%Z /\
  outlier_counts (vector [1; -2; 3; -4]) (1 # 2) 0 = (2%Z, 0%Z) /\
  outlier_band (vector [1; -2; 3; -4]) (1 # 2) 0 = [] /\
  returned (magnitude_outliers 0%nat (1 # 2) false 0
              (single (vector [1; -2; 3; -4]))) =
    Some (vector [0; 0; 0; 0]) /\
  returned (sparsify 0%nat (1 # 2) method_magnitude_outliers 0 false (15 # 100)
              (single (vector [1; -2; 3; -4]))) =
    Some (vector [0; 0; 0; 0]).
Proof. repeat split; reflexivity. Qed.

(** With an outlier to drop the band is as specified; here one of four. *)
Example magnitude_outliers_quarter_gamma :
  returned (magnitude_outliers 0%nat (1 # 2) false (1 # 4)
              (single (vector [1; -2; 3; -4]))) =
  Some (vector [0; -2; 3; 0]).
Proof. reflexivity. Qed.

(** ** sparsify *)

Lemma magnitude_never_not_implemented tensor density rescale s m s' :
  magnitude tensor density rescale s <> Raise (NotImplementedError m) s'.
Proof.
  destruct (Qle_bool 1 density) eqn:Hd.
  - rewrite magnitude_identity by exact Hd. discriminate.
  - destruct (heap s !! tensor) as [t|] eqn:Ht.
    + destruct (0 <? magnitude_k t density)%Z eqn:Hk.
      * rewrite (magnitude_unfold tensor t density rescale s Ht Hd Hk).
        destruct (apply_mask_spec s tensor t (magnitude_topk t density)
                    rescale Ht) as (r & s'' & out & -> & _).
        discriminate.
      * unfold magnitude. rewrite Hd, (bind_read _ t) by exact Ht.
        rewrite Hk. discriminate.
    + unfold magnitude, bind, read. rewrite Hd, Ht. discriminate.
Qed.

(** C2, as the code has it: [consensus_ties] is routed to [magnitude] and
    computes what [method = magnitude] computes, without reaching the
    unknown-strategy branch; [random] is routed to [bernoulli];
    [consensus_ta] is not routed at all and raises the not-implemented
    error on every input. *)
Theorem sparsify_consensus_routing s tensor density gamma rescale epsilon :
  sparsify tensor density method_consensus_ties gamma rescale epsilon s =
    sparsify tensor density method_magnitude gamma rescale epsilon s /\
  sparsify tensor density method_consensus_ties gamma rescale epsilon s =
    magnitude tensor density rescale s /\
  (forall m s',
     sparsify tensor density method_consensus_ties gamma rescale epsilon s <>
     Raise (NotImplementedError m) s') /\
  sparsify tensor density method_random gamma rescale epsilon s =
    bernoulli tensor density rescale s /\
  sparsify tensor density method_consensus_ta gamma rescale epsilon s =
    Raise (NotImplementedError method_consensus_ta) s.
Proof.
  repeat split. intros m s'. apply magnitude_never_not_implemented.
Qed.

(** C2, as stated, fails: on the same input [method = random] returns a
    masked tensor and [method = consensus_ta] raises the not-implemented
    error. *)
Lemma sparsify_consensus_ta_counterexample :
  returned (sparsify 0%nat (1 # 2) method_random 0 false (15 # 100)
              (single (vector [1; -2; 3; -4]))) =
    Some (vector [1; 0; 3; 0]) /\
  sparsify 0%nat (1 # 2) method_consensus_ta 0 false (15 # 100)
           (single (vector [1; -2; 3; -4])) =
    Raise (NotImplementedError method_consensus_ta)
          (single (vector [1; -2; 3; -4])).
Proof. split; reflexivity. Qed.

(** ** get_tall_mask *)



(** ** rank_magnitude, step by step *)


Lemma outside_band_false density epsilon :
  outside_band density epsilon = false <->
  epsilon < density /\ density < 1 - epsilon.
Proof.
  unfold outside_band. rewrite orb_false_iff, !Qle_bool_false. reflexivity.
Qed.

Lemma rank_magnitude_identity tensor density rescale epsilon s :
  Qle_bool 1 density = true ->
  rank_magnitude tensor density rescale epsilon s = Ok tensor s.
Proof. intros H. unfold rank_magnitude. rewrite H. reflexivity. Qed.

Lemma rank_magnitude_run_band tensor density rescale epsilon s :
  Qle_bool 1 density = false ->
  outside_band density epsilon = true ->
  rank_magnitude tensor density rescale epsilon s =
  Raise (ValueError (band_message density epsilon)) s.
Proof.
  intros Hd Hb. unfold rank_magnitude.
  rewrite Hd, Hb. reflexivity.
Qed.

Lemma rank_magnitude_run_empty_rows tensor t density rescale epsilon s :
  heap s !! tensor = Some t ->
  Qle_bool 1 density = false ->
  outside_band density epsilon = false ->
  size1 (rank_input t) = 0%nat ->
  rank_magnitude tensor density rescale epsilon s =
  Raise (IndexError empty_reduction) s.
Proof.
  intros Ht Hd Hb Hc. unfold rank_magnitude.
  rewrite Hd, Hb, (bind_read _ t) by exact Ht. rewrite Hc. reflexivity.
Qed.

Lemma rank_magnitude_run_invalid tensor t density rescale epsilon s :
  heap s !! tensor = Some t ->
  Qle_bool 1 density = false ->
  outside_band density epsilon = false ->
  size1 (rank_input t) <> 0%nat ->
  forallb valid_prob (final_probabilities (rank_input t) density epsilon)
    = false ->
  rank_magnitude tensor density rescale epsilon s =
  Raise (RuntimeError invalid_probability) s.
Proof.
  intros Ht Hd Hb Hc Hp. unfold rank_magnitude.
  rewrite Hd, Hb, (bind_read _ t) by exact Ht.
  apply Nat.eqb_neq in Hc. rewrite Hc.
  unfold torch_bernoulli. rewrite Hp. reflexivity.
Qed.

(** The tensor returned when every probability is valid. *)
Lemma rank_magnitude_run_valid tensor t density rescale epsilon s :
  heap s !! tensor = Some t ->
  Qle_bool 1 density = false ->
  outside_band density epsilon = false ->
  size1 (rank_input t) <> 0%nat ->
  forallb valid_prob (final_probabilities (rank_input t) density epsilon)
    = true ->
  exists r s' out,
    rank_magnitude tensor density rescale epsilon s = Ok r s' /\
    heap s' !! r = Some out /\
    heap s !! r = None /\
    t_shape out = squeeze0_shape (t_shape (rank_input t)) /\
    (forall l v, heap s !! l = Some v -> heap s' !! l = Some v).
Proof.
  intros Ht Hd Hb Hc Hp. unfold rank_magnitude.
  rewrite Hd, Hb, (bind_read _ t) by exact Ht.
  apply Nat.eqb_neq in Hc. rewrite Hc.
  unfold torch_bernoulli. rewrite Hp.
  rewrite bind_bind, bind_draw, bind_alloc. cbn [heap rng].
  set (mask := fresh (dom (heap s))).
  set (mv := with_data _ _).
  rewrite (bind_read _ mv) by apply lookup_insert_eq.
  set (h1 := <[mask := mv]> (heap s)).
  eexists _, _, _. split; [reflexivity|]. cbn [heap].
  split; [apply lookup_insert_eq|].
  split; [apply fresh_insert_None|].
  split; [destruct rescale; reflexivity|].
  intros l v Hv.
  assert (l <> mask)
    by (intros ->; subst mask; rewrite fresh_lookup in Hv; discriminate).
  assert (l <> fresh (dom h1)).
  { intros ->. subst h1. rewrite fresh_insert_None in Hv. discriminate. }
  subst h1. rewrite !lookup_insert_ne by congruence. exact Hv.
Qed.




(** ** rank_magnitude on rows of length 1 *)

Lemma chunks_single d : chunks (length d) 1 d = map (fun x => [x]) d.
Proof.
  induction d as [|x d IH]; simpl; [reflexivity|].
  rewrite drop_0, IH. reflexivity.
Qed.

Lemma single_column_rows t :
  well_formed t -> size1 t = 1%nat ->
  size1 (rank_input t) = 1%nat /\
  tensor_rows (rank_input t) = map (fun x => [x]) (t_data t).
Proof.
  unfold well_formed, size1, rank_input, tensor_rows.
  destruct t as [[n|r c] dt dv d]; simpl; intros Hwf Hc.
  - split; [exact Hc|]. rewrite Hc in Hwf.
    destruct d as [|x [|y d]]; try discriminate. rewrite Hc. reflexivity.
  - split; [exact Hc|]. rewrite Hc in *.
    rewrite Nat.mul_1_r in Hwf. subst r. apply chunks_single.
Qed.

(** The only rank of a row of length 1 is 1: maximum and minimum agree. *)
Lemma rank_row_single x : rank_row 1 [x] = [Qnat 1].
Proof. reflexivity. Qed.

Lemma range_val_single x : range_val (rank_row 1 [x]) == 0.
Proof. reflexivity. Qed.

Lemma row_probabilities_single density epsilon x :
  row_probabilities density epsilon (rank_row 1 [x]) = [None].
Proof. reflexivity. Qed.

Lemma single_column_probabilities t density epsilon :
  well_formed t -> size1 t = 1%nat ->
  final_probabilities (rank_input t) density epsilon =
  replicate (numel t) None.
Proof.
  intros Hwf Hc. destruct (single_column_rows t Hwf Hc) as [Hs Hrows].
  unfold final_probabilities, numel. rewrite Hs, Hrows. clear.
  induction (t_data t) as [|x d IH]; simpl; [reflexivity|].
  rewrite IH. reflexivity.
Qed.

(** C10: the rank normalisation divides by [max rank - min rank] without
    a guard.  On a non-empty input whose rows have length 1 (a 1-D tensor
    of one element, an N-by-1 matrix) and a valid density band, that divisor is
    zero in every row, no keep-probability is a number, and the Bernoulli
    draw is refused: the call raises instead of returning a mask. *)
Theorem rank_magnitude_single_column s tensor t density rescale epsilon :
  heap s !! tensor = Some t ->
  well_formed t ->
  size1 t = 1%nat ->
  (0 < numel t)%nat ->
  density < 1 -> epsilon < density -> density < 1 - epsilon ->
  Forall (fun row => length row = 1%nat /\
                     range_val (rank_row 1 (map Qabs row)) == 0)
         (tensor_rows (rank_input t)) /\
  final_probabilities (rank_input t) density epsilon =
    replicate (numel t) None /\
  Forall (fun p => valid_prob p = false)
         (final_probabilities (rank_input t) density epsilon) /\
  rank_magnitude tensor density rescale epsilon s =
    Raise (RuntimeError invalid_probability) s.
Proof.
  intros Ht Hwf Hc Hn Hlt He1 He2.
  destruct (single_column_rows t Hwf Hc) as [Hs Hrows].
  pose proof (single_column_probabilities t density epsilon Hwf Hc) as Hp.
  split; [|split; [exact Hp|split]].
  - rewrite Hrows. apply Forall_forall. intros row Hrow.
    apply list_elem_of_fmap in Hrow as (x & -> & _).
    split; [reflexivity | apply range_val_single].
  - rewrite Hp. apply Forall_forall. intros p Hin.
    apply elem_of_replicate in Hin as [-> _]. reflexivity.
  - apply (rank_magnitude_run_invalid tensor t); try assumption.
    + apply Qle_bool_false, Hlt.
    + apply outside_band_false. split; assumption.
    + rewrite Hs. discriminate.
    + rewrite Hp. destruct (numel t); [lia | reflexivity].
Qed.

Lemma rank_magnitude_single_column_witness :
  rank_magnitude 0%nat (1 # 2) true (1 # 20)
    (single (Tensor (Shape2 2 1) float32 cpu [3; -2])) =
  Raise (RuntimeError invalid_probability)
        (single (Tensor (Shape2 2 1) float32 cpu [3; -2])).
Proof.
  apply (rank_magnitude_single_column _ 0%nat
           (Tensor (Shape2 2 1) float32 cpu [3; -2]));
    try reflexivity. cbv. lia.
Defined.

(** ** rank_magnitude on rows of length at least 2 *)

Lemma foldl_Qmax_ge acc l :
  acc <= foldl Qmax acc l /\ forall r, r ∈ l -> r <= foldl Qmax acc l.
Proof.
  revert acc. induction l as [|x l IH]; intros acc; simpl.
  - split; [apply Qle_refl|]. intros r Hr. inversion Hr.
  - destruct (IH (Qmax acc x)) as [H1 H2]. split.
    + eapply Qle_trans; [apply Q.le_max_l | exact H1].
    + intros r Hr. apply elem_of_cons in Hr as [->|Hr].
      * eapply Qle_trans; [apply Q.le_max_r | exact H1].
      * apply H2, Hr.
Qed.

Lemma foldl_Qmin_le acc l :
  foldl Qmin acc l <= acc /\ forall r, r ∈ l -> foldl Qmin acc l <= r.
Proof.
  revert acc. induction l as [|x l IH]; intros acc; simpl.
  - split; [apply Qle_refl|]. intros r Hr. inversion Hr.
  - destruct (IH (Qmin acc x)) as [H1 H2]. split.
    + eapply Qle_trans; [exact H1 | apply Q.le_min_l].
    + intros r Hr. apply elem_of_cons in Hr as [->|Hr].
      * eapply Qle_trans; [exact H1 | apply Q.le_min_r].
      * apply H2, Hr.
Qed.

Lemma row_max_ge l r : r ∈ l -> r <= row_max l.
Proof.
  destruct l as [|x l]; intros Hr; [inversion Hr|]. simpl.
  destruct (foldl_Qmax_ge x l) as [H1 H2].
  apply elem_of_cons in Hr as [->|Hr]; [exact H1 | apply H2, Hr].
Qed.

Lemma row_min_le l r : r ∈ l -> row_min l <= r.
Proof.
  destruct l as [|x l]; intros Hr; [inversion Hr|]. simpl.
  destruct (foldl_Qmin_le x l) as [H1 H2].
  apply elem_of_cons in Hr as [->|Hr]; [exact H1 | apply H2, Hr].
Qed.

Lemma put_values_length idx vals d :
  length (put_values idx vals d) = length d.
Proof.
  unfold put_values. induction (zip idx vals) as [|iv l IH]; simpl;
    [reflexivity|]. rewrite length_insert. exact IH.
Qed.

(** With distinct indices, each position receives the value paired with
    its index. *)
Lemma put_values_lookup idx vals d j i v :
  NoDup idx -> idx !! j = Some i -> vals !! j = Some v ->
  (i < length d)%nat ->
  put_values idx vals d !! i = Some v.
Proof.
  intros Hnd. revert vals j. induction Hnd as [|i0 idx Hi0 _ IH];
    intros [|v0 vals] [|j] Hi Hv Hlen; try discriminate.
  - simpl in Hi, Hv. injection Hi as ->. injection Hv as ->.
    unfold put_values. simpl. apply list_lookup_insert_eq.
    fold (put_values idx vals d). rewrite put_values_length. exact Hlen.
  - simpl in Hi, Hv. unfold put_values. simpl.
    fold (put_values idx vals d).
    assert (i0 <> i).
    { intros ->. apply Hi0. eapply list_elem_of_lookup_2. exact Hi. }
    rewrite list_lookup_insert_ne by assumption.
    eapply IH; eassumption.
Qed.

Lemma arange1_lookup n j : (j < n)%nat -> arange1 n !! j = Some (Qnat (S j)).
Proof.
  intros Hj. unfold arange1.
  rewrite list_lookup_fmap, lookup_seq_lt by exact Hj.
  reflexivity.
Qed.

(** The rank written for the [j]-th smallest entry of a row is [j + 1]. *)
Lemma rank_row_contains w j :
  (j < length w)%nat -> Qnat (S j) ∈ rank_row (length w) w.
Proof.
  intros Hj. unfold rank_row.
  assert (Hlen : length (argsort w false) = length w) by apply argsort_length.
  destruct (lookup_lt_is_Some_2 (argsort w false) j) as [i Hi];
    [rewrite Hlen; exact Hj|].
  apply list_elem_of_lookup. exists i.
  apply (put_values_lookup _ _ _ j).
  - apply argsort_NoDup.
  - exact Hi.
  - apply arange1_lookup, Hj.
  - rewrite length_replicate. apply (argsort_range false w).
    eapply list_elem_of_lookup_2. exact Hi.
Qed.

(** In a row of at least two entries the ranks 1 and 2 both occur, so the
    divisor of the normalisation is positive. *)
Lemma range_val_pos w :
  (2 <= length w)%nat -> 0 < range_val (rank_row (length w) w).
Proof.
  intros Hlen. unfold range_val.
  pose proof (row_min_le _ _ (rank_row_contains w 0 ltac:(lia))) as Hmin.
  pose proof (row_max_ge _ _ (rank_row_contains w 1 ltac:(lia))) as Hmax.
  unfold Qminus. rewrite <- Qlt_minus_iff.
  eapply Qle_lt_trans; [exact Hmin|].
  eapply Qlt_le_trans; [|exact Hmax]. reflexivity.
Qed.

Section ValidBand.
Variables density epsilon : Q.
Hypothesis epsilon_nonneg : 0 <= epsilon.
Hypothesis band_low : epsilon < density.
Hypothesis band_high : density < 1 - epsilon.

(** Every keep-probability of a row of at least two entries lies in
    the band [density - epsilon, density + epsilon]. *)
Lemma row_probabilities_in_band w :
  (2 <= length w)%nat ->
  Forall (fun p => exists q, p = Some q /\
                     density - epsilon <= q /\ q <= density + epsilon)
         (row_probabilities density epsilon (rank_row (length w) w)).
Proof.
  intros Hlen. pose proof (range_val_pos w Hlen) as Hpos.
  set (ranks := rank_row (length w) w) in *.
  unfold row_probabilities. apply Forall_fmap, Forall_forall.
  intros r Hr. simpl. unfold fdiv.
  destruct (Qeq_bool (range_val ranks) 0) eqn:E.
  { apply Qeq_bool_iff in E. rewrite E in Hpos.
    exfalso. exact (Qlt_irrefl _ Hpos). }
  eexists. split; [reflexivity|].
  set (norm := (r - row_min ranks) / range_val ranks).
  assert (H0 : 0 <= norm).
  { apply Qle_shift_div_l; [exact Hpos|]. rewrite Qmult_0_l.
    unfold Qminus. rewrite <- Qle_minus_iff. apply row_min_le, Hr. }
  assert (H1 : norm <= 1).
  { apply Qle_shift_div_r; [exact Hpos|]. rewrite Qmult_1_l.
    unfold range_val. apply Qplus_le_l. apply row_max_ge, Hr. }
  assert (Hlo : 0 <= norm * (2 * epsilon)).
  { apply Qmult_le_0_compat; [exact H0|].
    apply Qmult_le_0_compat; [discriminate | exact epsilon_nonneg]. }
  assert (Hhi : norm * (2 * epsilon) <= 1 * (2 * epsilon)).
  { apply Qmult_le_compat_r; [exact H1|].
    apply Qmult_le_0_compat; [discriminate | exact epsilon_nonneg]. }
  split; lra.
Qed.

Lemma band_valid q :
  density - epsilon <= q -> q <= density + epsilon ->
  valid_prob (Some q) = true.
Proof.
  intros Hlo Hhi. simpl. apply andb_true_iff. rewrite !Qle_bool_iff.
  split; lra.
Qed.
End ValidBand.

Lemma chunks_lengths r c d :
  length d = (r * c)%nat -> Forall (fun row => length row = c) (chunks r c d).
Proof.
  revert d. induction r as [|r IH]; intros d Hd; simpl; constructor.
  - rewrite length_take. simpl in Hd. lia.
  - apply IH. rewrite length_drop. simpl in Hd. lia.
Qed.

Lemma rank_input_size1 t : size1 (rank_input t) = size1 t.
Proof. destruct t as [[n|r c] dt dv d]; reflexivity. Qed.

Lemma tensor_rows_lengths t :
  well_formed t ->
  Forall (fun row => length row = size1 t) (tensor_rows (rank_input t)).
Proof.
  unfold well_formed, rank_input, tensor_rows, size1.
  destruct t as [[n|r c] dt dv d]; simpl; intros Hwf.
  - repeat constructor. rewrite length_take. lia.
  - apply chunks_lengths, Hwf.
Qed.

Lemma forallb_valid_concat (ps : list (list prob)) :
  Forall (Forall (fun p => valid_prob p = true)) ps ->
  forallb valid_prob (concat ps) = true.
Proof.
  induction 1 as [|l ps Hl _ IH]; simpl; [reflexivity|].
  rewrite forallb_app, IH, andb_true_r.
  induction Hl as [|p l Hp _ IHl]; simpl; [reflexivity|].
  rewrite Hp, IHl. reflexivity.
Qed.

(** With rows of at least two entries and a valid band, every
    keep-probability is a number of [0, 1]. *)
Lemma final_probabilities_valid t density epsilon :
  well_formed t -> (2 <= size1 t)%nat ->
  0 <= epsilon -> epsilon < density -> density < 1 - epsilon ->
  forallb valid_prob (final_probabilities (rank_input t) density epsilon)
    = true.
Proof.
  intros Hwf Hc He Hlo Hhi. unfold final_probabilities.
  apply forallb_valid_concat, Forall_fmap.
  rewrite rank_input_size1.
  eapply Forall_impl; [apply tensor_rows_lengths, Hwf|].
  intros row Hrow. simpl.
  assert (Hlen : length (map Qabs row) = size1 t)
    by (rewrite length_map; exact Hrow).
  rewrite <- Hlen.
  eapply Forall_impl;
    [apply (row_probabilities_in_band density epsilon He); lia|].
  intros p (q & -> & H1 & H2).
  eapply (band_valid density epsilon); eassumption.
Qed.

(** [rank_magnitude] returns on every well-formed tensor whose rows have
    at least two entries, for a band with [0 <= epsilon < density <
    1 - epsilon]. *)
Lemma rank_magnitude_total s tensor t density rescale epsilon :
  heap s !! tensor = Some t ->
  well_formed t -> (2 <= size1 t)%nat ->
  0 <= epsilon -> epsilon < density -> density < 1 - epsilon ->
  exists r s' out,
    rank_magnitude tensor density rescale epsilon s = Ok r s' /\
    heap s' !! r = Some out /\
    heap s !! r = None /\
    t_shape out = squeeze0_shape (t_shape (rank_input t)) /\
    (forall l v, heap s !! l = Some v -> heap s' !! l = Some v).
Proof.
  intros Ht Hwf Hc He Hlo Hhi.
  apply (rank_magnitude_run_valid tensor t); try assumption.
  - apply Qle_bool_false. lra.
  - apply outside_band_false. split; assumption.
  - rewrite rank_input_size1. lia.
  - apply final_probabilities_valid; assumption.
Qed.

(** The shape of the tensor [rank_magnitude] returns: the unconditional
    [squeeze(0)] undoes the [unsqueeze(0)] of a 1-D input, keeps a matrix
    of several rows, and drops the leading dimension of a one-row
    matrix. *)
Lemma rank_output_shape t :
  squeeze0_shape (t_shape (rank_input t)) =
  match t_shape t with
  | Shape1 n => Shape1 n
  | Shape2 1 c => Shape1 c
  | Shape2 r c => Shape2 r c
  end.
Proof. destruct t as [[n|[|[|r]] c] dt dv d]; reflexivity. Qed.

(** C4 fails on the code for a matrix with a single row: the input has
    shape (1, 3), the output has shape (3,). *)
Theorem rank_magnitude_squeezes_single_row :
  t_shape <$> returned
    (rank_magnitude 0%nat (1 # 2) true (1 # 20)
       (single (Tensor (Shape2 1 3) float32 cpu [1; 2; 3]))) =
  Some (Shape1 3).
Proof. reflexivity. Qed.

(** The same on every one-row matrix of at least two columns, while 1-D
    inputs and matrices of several rows keep their shape. *)
Lemma rank_magnitude_shape s tensor t density rescale epsilon :
  heap s !! tensor = Some t ->
  well_formed t -> (2 <= size1 t)%nat ->
  0 <= epsilon -> epsilon < density -> density < 1 - epsilon ->
  exists r s' out,
    rank_magnitude tensor density rescale epsilon s = Ok r s' /\
    heap s' !! r = Some out /\
    (forall c, t_shape t = Shape2 1 c -> t_shape out = Shape1 c) /\
    ((forall c, t_shape t <> Shape2 1 c) -> t_shape out = t_shape t).
Proof.
  intros Ht Hwf Hc He Hlo Hhi.
  destruct (rank_magnitude_total s tensor t density rescale epsilon
              Ht Hwf Hc He Hlo Hhi)
    as (r & s' & out & Hrun & Hout & _ & Hshape & _).
  exists r, s', out. split; [exact Hrun|]. split; [exact Hout|].
  rewrite Hshape, rank_output_shape. split.
  - intros c ->. reflexivity.
  - intros Hne. destruct (t_shape t) as [n|[|[|r']] c]; try reflexivity.
    exfalso. exact (Hne c eq_refl).
Qed.

(** ** Frames: what a call leaves alone *)

Lemma fresh_above (h h' : gmap nat torch_tensor) :
  h ⊆ h' -> h !! fresh (dom h') = None.
Proof.
  intros Hsub. destruct (h !! fresh (dom h')) as [v|] eqn:E; [|reflexivity].
  apply (lookup_weaken _ _ _ _ E) in Hsub. rewrite fresh_lookup in Hsub.
  discriminate.
Qed.

Lemma subseteq_alloc (h h' : gmap nat torch_tensor) v :
  h ⊆ h' -> h ⊆ <[fresh (dom h') := v]> h'.
Proof.
  intros Hsub. apply insert_subseteq_r; [apply fresh_above, Hsub | exact Hsub].
Qed.

Lemma subseteq_write (h h' : gmap nat torch_tensor) l v :
  h !! l = None -> h ⊆ h' -> h ⊆ <[l := v]> h'.
Proof. intros Hl Hsub. apply insert_subseteq_r; assumption. Qed.

Lemma bernoulli_identity tensor density rescale s :
  Qle_bool 1 density = true -> bernoulli tensor density rescale s = Ok tensor s.
Proof. intros H. unfold bernoulli. rewrite H. reflexivity. Qed.

Lemma magnitude_outliers_identity tensor density rescale gamma s :
  Qle_bool 1 density = true ->
  magnitude_outliers tensor density rescale gamma s = Ok tensor s.
Proof. intros H. unfold magnitude_outliers. rewrite H. reflexivity. Qed.

(** [bernoulli] either returns a new tensor of the shape and dtype of its
    input, leaving every object as it was, or is refused by torch for a
    negative density, without effect. *)
Lemma bernoulli_spec s tensor t density rescale :
  heap s !! tensor = Some t ->
  Qle_bool 1 density = false ->
  (exists r s' out,
     bernoulli tensor density rescale s = Ok r s' /\
     heap s' !! r = Some out /\
     heap s !! r = None /\
     preserved s s' /\
     t_shape out = t_shape t /\ t_dtype out = t_dtype t) \/
  bernoulli tensor density rescale s =
    Raise (RuntimeError invalid_probability) s.
Proof.
  intros Ht Hd. unfold bernoulli. rewrite Hd, (bind_read _ t) by exact Ht.
  unfold torch_bernoulli.
  destruct (forallb valid_prob (replicate (numel t) (Some density))) eqn:Hp;
    [left | right; reflexivity].
  rewrite bind_bind, bind_draw, bind_alloc. cbn [heap rng].
  set (mv := with_data _ _).
  set (h1 := <[fresh (dom (heap s)) := mv]> (heap s)).
  assert (H1 : heap s ⊆ h1) by (apply subseteq_alloc; reflexivity).
  rewrite (bind_read _ mv) by apply lookup_insert_eq.
  rewrite bind_alloc. cbn [heap rng]. fold h1.
  set (res := fresh (dom h1)).
  set (rv := tensor_mul (to_dtype t (work_dtype t)) mv).
  assert (Hres : heap s !! res = None) by (apply fresh_above, H1).
  assert (H2 : heap s ⊆ <[res := rv]> h1) by (apply subseteq_alloc, H1).
  unfold to_, preserved.
  destruct rescale.
  - unfold idiv. rewrite !bind_bind.
    rewrite (bind_read _ rv) by apply lookup_insert_eq.
    rewrite bind_write. cbn [heap rng].
    set (rv' := with_data rv _).
    rewrite (bind_read _ rv') by apply lookup_insert_eq.
    assert (H3 : heap s ⊆ <[res := rv']> (<[res := rv]> h1))
      by (apply subseteq_write; assumption).
    destruct (dtype_eqb (t_dtype rv') (t_dtype t)) eqn:E.
    + eexists _, _, _. split; [reflexivity|]. cbn [heap].
      split; [apply lookup_insert_eq|]. split; [exact Hres|].
      split; [exact H3|]. split; [reflexivity|].
      simpl in *. destruct (work_dtype t), (t_dtype t);
        try discriminate; reflexivity.
    + eexists _, _, _. split; [reflexivity|]. cbn [heap].
      split; [apply lookup_insert_eq|].
      split; [apply fresh_above, H3|].
      split; [apply subseteq_alloc, H3|]. split; reflexivity.
  - rewrite bind_ret. rewrite (bind_read _ rv) by apply lookup_insert_eq.
    destruct (dtype_eqb (t_dtype rv) (t_dtype t)) eqn:E.
    + eexists _, _, _. split; [reflexivity|]. cbn [heap].
      split; [apply lookup_insert_eq|]. split; [exact Hres|].
      split; [exact H2|]. split; [reflexivity|].
      simpl in *. destruct (work_dtype t), (t_dtype t);
        try discriminate; reflexivity.
    + eexists _, _, _. split; [reflexivity|]. cbn [heap].
      split; [apply lookup_insert_eq|].
      split; [apply fresh_above, H2|].
      split; [apply subseteq_alloc, H2|]. split; reflexivity.
Qed.

Lemma apply_mask_pure s tensor t idx :
  heap s !! tensor = Some t ->
  pure_call s (apply_mask tensor t idx false s).
Proof.
  intros Ht.
  destruct (apply_mask_spec s tensor t idx false Ht)
    as (r & s' & out & -> & _ & Hfresh & _ & _ & _ & _ & Hframe & Htensor).
  split; [exact Hfresh|]. apply map_subseteq_spec. intros l v Hv.
  destruct (decide (l = tensor)) as [->|Hne].
  - rewrite Ht in Hv. injection Hv as <-. apply Htensor. reflexivity.
  - apply Hframe; assumption.
Qed.

Lemma apply_mask_pure_except s tensor t idx rescale :
  heap s !! tensor = Some t ->
  pure_call_except tensor s (apply_mask tensor t idx rescale s).
Proof.
  intros Ht.
  destruct (apply_mask_spec s tensor t idx rescale Ht)
    as (r & s' & out & -> & _ & Hfresh & _ & _ & _ & _ & Hframe & _).
  split; assumption.
Qed.

Lemma magnitude_cases s tensor t density rescale :
  heap s !! tensor = Some t ->
  Qle_bool 1 density = false ->
  magnitude tensor density rescale s =
    apply_mask tensor t (magnitude_topk t density) rescale s \/
  magnitude tensor density rescale s =
    Raise (AssertionError "not gonna zero out the whole tensor buddy") s.
Proof.
  intros Ht Hd. destruct (0 <? magnitude_k t density)%Z eqn:Hk.
  - left. apply magnitude_unfold; assumption.
  - right. unfold magnitude. rewrite Hd, (bind_read _ t) by exact Ht.
    rewrite Hk. reflexivity.
Qed.

Lemma magnitude_pure s tensor t density :
  heap s !! tensor = Some t -> Qle_bool 1 density = false ->
  pure_call s (magnitude tensor density false s).
Proof.
  intros Ht Hd.
  destruct (magnitude_cases s tensor t density false Ht Hd) as [-> | ->].
  - apply apply_mask_pure, Ht.
  - reflexivity.
Qed.

Lemma magnitude_pure_except s tensor t density rescale :
  heap s !! tensor = Some t -> Qle_bool 1 density = false ->
  pure_call_except tensor s (magnitude tensor density rescale s).
Proof.
  intros Ht Hd.
  destruct (magnitude_cases s tensor t density rescale Ht Hd) as [-> | ->].
  - apply apply_mask_pure_except, Ht.
  - reflexivity.
Qed.

Lemma magnitude_outliers_pure s tensor t density gamma :
  heap s !! tensor = Some t -> Qle_bool 1 density = false ->
  pure_call s (magnitude_outliers tensor density false gamma s).
Proof.
  intros Ht Hd. rewrite (magnitude_outliers_unfold _ t) by assumption.
  apply apply_mask_pure, Ht.
Qed.

Lemma magnitude_outliers_pure_except s tensor t density rescale gamma :
  heap s !! tensor = Some t -> Qle_bool 1 density = false ->
  pure_call_except tensor s (magnitude_outliers tensor density rescale gamma s).
Proof.
  intros Ht Hd. rewrite (magnitude_outliers_unfold _ t) by assumption.
  apply apply_mask_pure_except, Ht.
Qed.

Lemma bernoulli_pure s tensor t density rescale :
  heap s !! tensor = Some t -> Qle_bool 1 density = false ->
  pure_call s (bernoulli tensor density rescale s).
Proof.
  intros Ht Hd.
  destruct (bernoulli_spec s tensor t density rescale Ht Hd)
    as [(r & s' & out & -> & _ & Hfresh & Hpres & _) | ->].
  - split; assumption.
  - reflexivity.
Qed.

Lemma rank_magnitude_pure s tensor t density rescale epsilon :
  heap s !! tensor = Some t -> Qle_bool 1 density = false ->
  pure_call s (rank_magnitude tensor density rescale epsilon s).
Proof.
  intros Ht Hd. destruct (outside_band density epsilon) eqn:Hb.
  { rewrite rank_magnitude_run_band by assumption. reflexivity. }
  destruct (Nat.eq_dec (size1 (rank_input t)) 0%nat) as [Hc|Hc].
  { rewrite (rank_magnitude_run_empty_rows _ t) by assumption. reflexivity. }
  destruct (forallb valid_prob
              (final_probabilities (rank_input t) density epsilon)) eqn:Hp.
  - destruct (rank_magnitude_run_valid tensor t density rescale epsilon s
                Ht Hd Hb Hc Hp) as (r & s' & out & -> & _ & Hfresh & _ & Hf).
    split; [exact Hfresh|]. apply map_subseteq_spec. exact Hf.
  - rewrite (rank_magnitude_run_invalid _ t) by assumption. reflexivity.
Qed.

Lemma pure_call_weaken tensor s o :
  pure_call s o -> pure_call_except tensor s o.
Proof.
  destruct o as [r s'|e s']; simpl; [|trivial].
  intros [Hfresh Hpres]. split; [exact Hfresh|].
  intros l v _ Hv. exact (lookup_weaken _ _ _ _ Hv Hpres).
Qed.

(** [rescale_sum] returns a new tensor and changes no object but the one
    behind [tensor], which it leaves alone when the guard fails. *)
Lemma rescale_sum_frame s tensor mask t m :
  heap s !! tensor = Some t -> heap s !! mask = Some m ->
  exists r s',
    rescale_sum tensor mask s = Ok r s' /\
    heap s !! r = None /\
    (forall l v, l <> tensor -> heap s !! l = Some v ->
                 heap s' !! l = Some v) /\
    (rescales t m = false -> preserved s s').
Proof.
  intros Ht Hm. destruct (rescales t m) eqn:Hc.
  - rewrite (rescale_sum_run_scaled tensor mask t m s Ht Hm Hc).
    set (t' := scaled t _). set (h' := <[tensor := t']> (heap s)).
    eexists _, _. split; [reflexivity|]. cbn [heap].
    assert (Hr : heap s !! fresh (dom h') = None) by apply fresh_insert_None.
    split; [exact Hr|]. split; [|discriminate].
    intros l v Hne Hv.
    assert (l <> fresh (dom h')) by (intros ->; congruence).
    subst h'. rewrite !lookup_insert_ne by congruence. exact Hv.
  - rewrite (rescale_sum_run_unscaled tensor mask t m s Ht Hm Hc).
    eexists _, _. split; [reflexivity|]. cbn [heap].
    split; [apply fresh_lookup|].
    assert (Hsub : heap s ⊆
                   <[fresh (dom (heap s)) := tensor_mul t m]> (heap s))
      by (apply subseteq_alloc; reflexivity).
    split; [|intros _; exact Hsub].
    intros l v _ Hv. exact (lookup_weaken _ _ _ _ Hv Hsub).
Qed.

(** C3, as the code has it.  For a tensor object of the state:
    - with a density of at least 1, every strategy, and [sparsify] for
      every routed method, returns the handle it was given and leaves the
      state as it was: the result is the input itself, not a new tensor;
    - with a density below 1, [bernoulli] and [rank_magnitude] (for any
      rescale flag), [magnitude] and [magnitude_outliers] without
      rescaling, and [sparsify] on these paths, return a new tensor and
      leave every object of the state as it was, or raise without
      effect;
    - [rescale_sum] returns a new tensor, never changes its mask (a
      different object) nor any object other than its tensor argument,
      and leaves the tensor argument as it was when a sum is below the
      threshold;
    - with rescaling, [magnitude], [magnitude_outliers] and [sparsify]
      return a new tensor and leave every object other than the input as
      it was; nothing is stated about the input on that path. *)
Theorem inputs_preserved s tensor t :
  heap s !! tensor = Some t ->
  (forall density rescale gamma epsilon, 1 <= density ->
     magnitude tensor density rescale s = Ok tensor s /\
     magnitude_outliers tensor density rescale gamma s = Ok tensor s /\
     bernoulli tensor density rescale s = Ok tensor s /\
     rank_magnitude tensor density rescale epsilon s = Ok tensor s /\
     forall method, method <> method_consensus_ta ->
       sparsify tensor density method gamma rescale epsilon s = Ok tensor s) /\
  (forall density rescale gamma epsilon, density < 1 ->
     pure_call s (magnitude tensor density false s) /\
     pure_call s (magnitude_outliers tensor density false gamma s) /\
     pure_call s (bernoulli tensor density rescale s) /\
     pure_call s (rank_magnitude tensor density rescale epsilon s) /\
     (forall method,
        rescale = false \/ method = method_random \/
        method = method_rank_magnitude_sampling \/
        method = method_consensus_ta ->
        pure_call s (sparsify tensor density method gamma rescale epsilon s)) /\
     pure_call_except tensor s (magnitude tensor density rescale s) /\
     pure_call_except tensor s
       (magnitude_outliers tensor density rescale gamma s) /\
     (forall method,
        pure_call_except tensor s
          (sparsify tensor density method gamma rescale epsilon s))) /\
  (forall mask m, heap s !! mask = Some m -> mask <> tensor ->
     exists r s',
       rescale_sum tensor mask s = Ok r s' /\
       heap s !! r = None /\
       heap s' !! mask = Some m /\
       (forall l v, l <> tensor -> heap s !! l = Some v ->
                    heap s' !! l = Some v) /\
       (org_sum t < threshold \/ new_sum t m < threshold ->
        preserved s s')).
Proof.
  intros Ht. split; [|split].
  - intros density rescale gamma epsilon Hd.
    apply Qle_bool_iff in Hd.
    pose proof (magnitude_identity tensor density rescale s Hd) as H1.
    pose proof (magnitude_outliers_identity tensor density rescale gamma s Hd)
      as H2.
    pose proof (bernoulli_identity tensor density rescale s Hd) as H3.
    pose proof (rank_magnitude_identity tensor density rescale epsilon s Hd)
      as H4.
    repeat (split; [assumption|]).
    intros [] Hm; simpl; try assumption. congruence.
  - intros density rescale gamma epsilon Hd.
    apply Qle_bool_false in Hd.
    pose proof (magnitude_pure s tensor t density Ht Hd) as H1.
    pose proof (magnitude_outliers_pure s tensor t density gamma Ht Hd) as H2.
    pose proof (bernoulli_pure s tensor t density rescale Ht Hd) as H3.
    pose proof (rank_magnitude_pure s tensor t density rescale epsilon Ht Hd)
      as H4.
    pose proof (magnitude_pure_except s tensor t density rescale Ht Hd) as H5.
    pose proof (magnitude_outliers_pure_except s tensor t density rescale
                  gamma Ht Hd) as H6.
    repeat (split; [assumption|]). split; [|split; [assumption|split]].
    + intros method [-> | [-> | [-> | ->]]];
        [destruct method | | |]; simpl; try assumption; reflexivity.
    + assumption.
    + intros []; simpl; try assumption;
        try (apply pure_call_weaken; assumption). reflexivity.
  - intros mask m Hm Hne.
    destruct (rescale_sum_frame s tensor mask t m Ht Hm)
      as (r & s' & Hrun & Hfresh & Hframe & Hguard).
    exists r, s'. split; [exact Hrun|]. split; [exact Hfresh|].
    split; [apply Hframe; assumption|]. split; [exact Hframe|].
    intros Hlow. apply Hguard, rescales_false, Hlow.
Qed.

Lemma inputs_preserved_witness :
  pure_call (single (vector [1; -2; 3; -4]))
    (magnitude 0%nat (1 # 2) false (single (vector [1; -2; 3; -4]))) /\
  pure_call (single (vector [1; -2; 3; -4]))
    (bernoulli 0%nat (1 # 2) true (single (vector [1; -2; 3; -4]))).
Proof.
  destruct (inputs_preserved (single (vector [1; -2; 3; -4])) 0%nat
              (vector [1; -2; 3; -4]) eq_refl) as (_ & H & _).
  destruct (H (1 # 2) true 0 (1 # 20) eq_refl) as (H1 & _ & H3 & _).
  split; assumption.
Defined.

(** C3, as stated, fails twice.  With rescaling, [magnitude] hands the
    tensor of its caller to [rescale_sum], whose [tensor *= ...] scales
    it in place: after the call the input holds 10/7 of its values.  With
    a density of 1 the result is the input handle itself, not a new
    tensor. *)
Lemma inputs_preserved_counterexample :
  heap (single (vector [1; -2; 3; -4])) !! 0%nat =
    Some (vector [1; -2; 3; -4]) /\
  heap (final_state
          (magnitude 0%nat (1 # 2) true (single (vector [1; -2; 3; -4]))))
    !! 0%nat =
    Some (vector [10 # 7; -20 # 7; 30 # 7; -40 # 7]) /\
  heap (final_state
          (magnitude 0%nat (1 # 2) true (single (vector [1; -2; 3; -4]))))
    !! 0%nat <>
    heap (single (vector [1; -2; 3; -4])) !! 0%nat /\
  magnitude 0%nat 1 false (single (vector [1; -2; 3; -4])) =
    Ok 0%nat (single (vector [1; -2; 3; -4])) /\
  ~ pure_call (single (vector [1; -2; 3; -4]))
      (magnitude 0%nat 1 false (single (vector [1; -2; 3; -4]))).
Proof.
  split; [reflexivity|]. split; [reflexivity|].
  split; [discriminate|]. split; [reflexivity|].
  intros [H _]. discriminate H.
Qed.

(** * Further properties of the code *)

(** ** magnitude_outliers: the band that is kept *)














(** ** magnitude: when it returns, and what a larger density adds *)




Lemma floor_count_mono t d1 d2 :
  d1 <= d2 -> (floor_count t d1 <= floor_count t d2)%Z.
Proof.
  intros H. unfold floor_count. apply Qfloor_resp_le.
  apply Qmult_le_compat_r; [exact H | apply Qnat_nonneg].
Qed.

(** The entry of [tensor * mask] at a kept index is the original entry,
    at any other index it is zero. *)
Lemma masked_key t idx i :
  (i < numel t)%nat ->
  key (t_data (tensor_mul t (mask_of t idx))) i =
  key (t_data t) i * (if decide (i ∈ idx) then 1 else 0).
Proof.
  intros Hi. unfold tensor_mul, mask_of. cbn [t_data with_data].
  rewrite key_mul;
    [|exact Hi|rewrite put_const_length, length_replicate; exact Hi].
  rewrite (key_mask idx (numel t) i Hi). reflexivity.
Qed.

(** X5: raising the density only adds entries.  For densities
    [d1 <= d2] in (0,1) with [floor(d1 * N) >= 1], the entries [magnitude]
    keeps at [d1] are a prefix of those it keeps at [d2], and, without
    rescaling, every non-zero entry of the output at [d1] appears with the
    same value in the output at [d2]. *)
Theorem magnitude_density_monotone s tensor t d1 d2 :
  heap s !! tensor = Some t ->
  0 < d1 -> d1 <= d2 -> d2 < 1 ->
  (0 < floor_count t d1)%Z ->
  exists r1 s1 out1 r2 s2 out2,
    magnitude tensor d1 false s = Ok r1 s1 /\
    heap s1 !! r1 = Some out1 /\
    magnitude tensor d2 false s = Ok r2 s2 /\
    heap s2 !! r2 = Some out2 /\
    magnitude_topk t d1 =
      take (length (magnitude_topk t d1)) (magnitude_topk t d2) /\
    (forall i, i ∈ magnitude_topk t d1 -> i ∈ magnitude_topk t d2) /\
    (forall i, (i < numel t)%nat ->
       ~ key (t_data out1) i == 0 ->
       key (t_data out2) i = key (t_data out1) i).
Proof.
  intros Ht Hpos Hle Hlt Hk1.
  assert (Hpos2 : 0 < d2) by (eapply Qlt_le_trans; eassumption).
  assert (Hlt1 : d1 < 1) by (eapply Qle_lt_trans; eassumption).
  pose proof (floor_count_mono t d1 d2 Hle) as Hmono.
  pose proof (magnitude_k_floor t d1 Hpos) as Hf1.
  pose proof (magnitude_k_floor t d2 Hpos2) as Hf2.
  assert (Hrun : forall d, 0 < d -> d < 1 -> (0 < floor_count t d)%Z ->
            exists r s', magnitude tensor d false s = Ok r s' /\
              heap s' !! r = Some (tensor_mul t (mask_of t (magnitude_topk t d)))).
  { intros d Hd0 Hd1 Hk.
    assert (Hd : Qle_bool 1 d = false) by (apply Qle_bool_false, Hd1).
    assert (Hk' : (0 <? magnitude_k t d)%Z = true)
      by (apply Z.ltb_lt; rewrite (magnitude_k_floor t d Hd0); exact Hk).
    rewrite (magnitude_unfold tensor t d false s Ht Hd Hk').
    destruct (apply_mask_spec s tensor t (magnitude_topk t d) false Ht)
      as (r & s' & out & Hr & Hout & _ & _ & _ & _ & Heq & _).
    exists r, s'. split; [exact Hr|]. rewrite <- (Heq eq_refl). exact Hout. }
  destruct (Hrun d1 Hpos Hlt1 Hk1) as (r1 & s1 & Hr1 & Ho1).
  destruct (Hrun d2 Hpos2 Hlt ltac:(lia)) as (r2 & s2 & Hr2 & Ho2).
  assert (Hprefix : magnitude_topk t d1 =
            take (length (magnitude_topk t d1)) (magnitude_topk t d2)).
  { pose proof (magnitude_topk_length t d1 Hpos Hlt1) as Hl1.
    rewrite (magnitude_topk_take t d1 Hpos Hlt1) at 1.
    rewrite (magnitude_topk_take t d2 Hpos2 Hlt).
    rewrite take_take. f_equal. lia. }
  assert (Hsub : forall i, i ∈ magnitude_topk t d1 -> i ∈ magnitude_topk t d2).
  { intros i Hi. rewrite Hprefix in Hi. eapply subseteq_take, Hi. }
  eexists _, _, _, _, _, _.
  split; [exact Hr1|]. split; [exact Ho1|].
  split; [exact Hr2|]. split; [exact Ho2|].
  split; [exact Hprefix|]. split; [exact Hsub|].
  intros i Hi Hnz. rewrite !masked_key by exact Hi.
  rewrite masked_key in Hnz by exact Hi.
  destruct (decide (i ∈ magnitude_topk t d1)) as [Hin|Hout].
  - rewrite decide_True by (apply Hsub, Hin). reflexivity.
  - exfalso. apply Hnz. ring.
Qed.

Lemma magnitude_density_monotone_witness :
  magnitude_topk (vector [1; -2; 3; -4]) (1 # 4) =
  take (length (magnitude_topk (vector [1; -2; 3; -4]) (1 # 4)))
       (magnitude_topk (vector [1; -2; 3; -4]) (3 # 4)).
Proof.
  destruct (magnitude_density_monotone (single (vector [1; -2; 3; -4])) 0%nat
              (vector [1; -2; 3; -4]) (1 # 4) (3 # 4))
    as (r1 & s1 & out1 & r2 & s2 & out2 & _ & _ & _ & _ & Hp & _).
  - reflexivity.
  - reflexivity.
  - discriminate.
  - reflexivity.
  - reflexivity.
  - exact Hp.
Defined.

(** ** Rescaling: what it preserves and what it overwrites *)









(** X7: [rescale_sum] scales its first argument in place.  When the mask
    is a different object and both sums reach the threshold, after the
    call the object behind [tensor] holds every original value multiplied
    by [sum(|tensor|) / sum(|tensor * mask|)], the mask is as it was, and
    the result is a new object holding the scaled values times the mask. *)
Theorem rescale_sum_scales_in_place s tensor mask t m :
  heap s !! tensor = Some t ->
  heap s !! mask = Some m ->
  mask <> tensor ->
  threshold <= org_sum t -> threshold <= new_sum t m ->
  exists r s',
    rescale_sum tensor mask s = Ok r s' /\
    heap s !! r = None /\
    heap s' !! r =
      Some (tensor_mul (scaled t (org_sum t / new_sum t m)) m) /\
    heap s' !! tensor = Some (scaled t (org_sum t / new_sum t m)) /\
    heap s' !! mask = Some m /\
    sum_abs (t_data (scaled t (org_sum t / new_sum t m))) ==
      org_sum t * (org_sum t / new_sum t m).
Proof.
  intros Ht Hm Hne Ho Hn.
  assert (Hc : rescales t m = true) by (apply rescales_true; split; assumption).
  rewrite (rescale_sum_run_scaled tensor mask t m s Ht Hm Hc).
  rewrite decide_False by exact Hne.
  set (c := org_sum t / new_sum t m).
  set (h' := <[tensor := scaled t c]> (heap s)).
  assert (Hr : heap s !! fresh (dom h') = None).
  { pose proof (fresh_lookup h') as H. subst h'.
    apply lookup_insert_None in H. tauto. }
  assert (Hrt : fresh (dom h') <> tensor) by (intros E; congruence).
  assert (Hrm : fresh (dom h') <> mask) by (intros E; congruence).
  eexists _, _. split; [reflexivity|]. cbn [heap].
  split; [exact Hr|]. split; [apply lookup_insert_eq|].
  split; [|split].
  - rewrite lookup_insert_ne by exact Hrt. subst h'. apply lookup_insert_eq.
  - rewrite lookup_insert_ne by exact Hrm. subst h'.
    rewrite lookup_insert_ne by congruence. exact Hm.
  - cbn [scaled with_data t_data]. apply sum_abs_scale.
    apply Qlt_le_weak. apply (ratio_pos _ _ Hc).
Qed.

Lemma rescale_sum_scales_in_place_witness :
  exists r s',
    rescale_sum 0%nat 1%nat
      (with_mask (vector [1; -2; 3; -4]) (vector [0; 0; 1; 1])) = Ok r s' /\
    heap s' !! 0%nat = Some (vector [10 # 7; -20 # 7; 30 # 7; -40 # 7]).
Proof.
  destruct (rescale_sum_scales_in_place
              (with_mask (vector [1; -2; 3; -4]) (vector [0; 0; 1; 1]))
              0%nat 1%nat (vector [1; -2; 3; -4]) (vector [0; 0; 1; 1]))
    as (r & s' & Hrun & _ & _ & Htensor & _).
  - reflexivity.
  - reflexivity.
  - discriminate.
  - discriminate.
  - discriminate.
  - exists r, s'. split; [exact Hrun|]. rewrite Htensor. reflexivity.
Defined.

(** ** bernoulli: the values returned and the samples consumed *)








(** X9: the deterministic strategies never touch the random generator:
    whatever [magnitude] and [magnitude_outliers] do on a tensor of the
    state (return or raise, with or without rescaling), the generator is
    afterwards as it was before, so a later random strategy draws the same
    samples as if they had not run. *)
Theorem deterministic_strategies_keep_generator
  s tensor t density rescale gamma :
  heap s !! tensor = Some t ->
  rng (final_state (magnitude tensor density rescale s)) = rng s /\
  rng (final_state (magnitude_outliers tensor density rescale gamma s)) =
    rng s.
Proof.
  intros Ht. split.
  - destruct (Qle_bool 1 density) eqn:Hd.
    + rewrite magnitude_identity by exact Hd. reflexivity.
    + destruct (magnitude_cases s tensor t density rescale Ht Hd) as [-> | ->];
        [|reflexivity].
      destruct (apply_mask_spec s tensor t (magnitude_topk t density)
                  rescale Ht) as (r & s' & out & -> & _ & _ & Hrng & _).
      exact Hrng.
  - destruct (Qle_bool 1 density) eqn:Hd.
    + rewrite magnitude_outliers_identity by exact Hd. reflexivity.
    + rewrite (magnitude_outliers_unfold _ t) by assumption.
      destruct (apply_mask_spec s tensor t (outlier_band t density gamma)
                  rescale Ht) as (r & s' & out & -> & _ & _ & Hrng & _).
      exact Hrng.
Qed.

Lemma deterministic_strategies_keep_generator_witness :
  rng (final_state
         (magnitude 0%nat (1 # 2) true (single (vector [1; -2; 3; -4])))) =
  rng (single (vector [1; -2; 3; -4])).
Proof.
  apply (deterministic_strategies_keep_generator
           (single (vector [1; -2; 3; -4])) 0%nat (vector [1; -2; 3; -4])
           (1 # 2) true 0 eq_refl).
Defined.

(** ** rank_magnitude: the keep-probabilities *)

Lemma foldl_Qmin_glb lb acc l :
  lb <= acc -> (forall r, r ∈ l -> lb <= r) -> lb <= foldl Qmin acc l.
Proof.
  revert acc. induction l as [|x l IH]; intros acc Hacc Hl; simpl;
    [exact Hacc|].
  apply IH.
  - apply Q.min_glb; [exact Hacc | apply Hl; now left].
  - intros r Hr. apply Hl. now right.
Qed.

Lemma foldl_Qmax_lub ub acc l :
  acc <= ub -> (forall r, r ∈ l -> r <= ub) -> foldl Qmax acc l <= ub.
Proof.
  revert acc. induction l as [|x l IH]; intros acc Hacc Hl; simpl;
    [exact Hacc|].
  apply IH.
  - apply Q.max_lub; [exact Hacc | apply Hl; now left].
  - intros r Hr. apply Hl. now right.
Qed.

Lemma row_min_glb lb l :
  l <> [] -> (forall r, r ∈ l -> lb <= r) -> lb <= row_min l.
Proof.
  destruct l as [|x l]; intros Hne Hl; [congruence|]. simpl.
  apply foldl_Qmin_glb; [apply Hl; now left|].
  intros r Hr. apply Hl. now right.
Qed.

Lemma row_max_lub ub l :
  l <> [] -> (forall r, r ∈ l -> r <= ub) -> row_max l <= ub.
Proof.
  destruct l as [|x l]; intros Hne Hl; [congruence|]. simpl.
  apply foldl_Qmax_lub; [apply Hl; now left|].
  intros r Hr. apply Hl. now right.
Qed.

Lemma Qnat_le a b : (a <= b)%nat -> Qnat a <= Qnat b.
Proof. intros H. unfold Qnat. rewrite <- Zle_Qle. lia. Qed.

Lemma Qnat_lt a b : (a < b)%nat -> Qnat a < Qnat b.
Proof. intros H. unfold Qnat. rewrite <- Zlt_Qlt. lia. Qed.

Lemma Qnat_S n : Qnat (S n) == Qnat n + 1.
Proof.
  unfold Qnat. rewrite Nat2Z.inj_succ, <- Z.add_1_r, inject_Z_plus.
  reflexivity.
Qed.

Section Ranks.
Variable w : list Q.

(** The entry that comes [j]-th in ascending order receives rank
    [j + 1]. *)
Lemma rank_row_lookup j i :
  argsort w false !! j = Some i ->
  rank_row (length w) w !! i = Some (Qnat (S j)).
Proof.
  intros Hi. unfold rank_row.
  assert (Hj : (j < length w)%nat).
  { rewrite <- (argsort_length false w). eapply lookup_lt_Some, Hi. }
  apply (put_values_lookup _ _ _ j).
  - apply argsort_NoDup.
  - exact Hi.
  - apply arange1_lookup, Hj.
  - rewrite length_replicate. apply (argsort_range false w).
    eapply list_elem_of_lookup_2. exact Hi.
Qed.

Lemma rank_row_length : length (rank_row (length w) w) = length w.
Proof. unfold rank_row. rewrite put_values_length. apply length_replicate. Qed.

(** Every position holds the rank of its place in the ascending order. *)
Lemma rank_row_position i :
  (i < length w)%nat ->
  exists j, (j < length w)%nat /\ argsort w false !! j = Some i /\
            rank_row (length w) w !! i = Some (Qnat (S j)).
Proof.
  intros Hi. apply (argsort_range false w) in Hi.
  apply list_elem_of_lookup in Hi as [j Hj].
  exists j. split; [|split; [exact Hj | apply rank_row_lookup, Hj]].
  rewrite <- (argsort_length false w). eapply lookup_lt_Some, Hj.
Qed.

Lemma rank_row_bounds r :
  r ∈ rank_row (length w) w -> 1 <= r /\ r <= Qnat (length w).
Proof.
  intros Hr. apply list_elem_of_lookup in Hr as [i Hi].
  assert (Hlt : (i < length w)%nat)
    by (rewrite <- rank_row_length; eapply lookup_lt_Some, Hi).
  destruct (rank_row_position i Hlt) as (j & Hj & _ & Hrank).
  rewrite Hrank in Hi. injection Hi as <-. split.
  - change 1 with (Qnat 1). apply Qnat_le. lia.
  - apply Qnat_le. lia.
Qed.

Hypothesis two_entries : (2 <= length w)%nat.

Lemma rank_row_nonempty : rank_row (length w) w <> [].
Proof.
  intros E. pose proof rank_row_length as H. rewrite E in H. simpl in H. lia.
Qed.

Lemma rank_row_min : row_min (rank_row (length w) w) == 1.
Proof.
  apply Qle_antisym.
  - change 1 with (Qnat 1). apply row_min_le, rank_row_contains. lia.
  - apply row_min_glb; [apply rank_row_nonempty|].
    intros r Hr. apply rank_row_bounds, Hr.
Qed.

Lemma rank_row_max : row_max (rank_row (length w) w) == Qnat (length w).
Proof.
  apply Qle_antisym.
  - apply row_max_lub; [apply rank_row_nonempty|].
    intros r Hr. apply rank_row_bounds, Hr.
  - pose proof (rank_row_contains w (length w - 1) ltac:(lia)) as H.
    replace (S (length w - 1)) with (length w) in H by lia.
    apply row_max_ge, H.
Qed.

(** The keep-probability of the entry that comes [j]-th in ascending
    order. *)
Lemma rank_probability_at density epsilon j i :
  argsort w false !! j = Some i ->
  exists p,
    row_probabilities density epsilon (rank_row (length w) w) !! i =
      Some (Some p) /\
    p == (density - epsilon) +
         (Qnat j / Qnat (length w - 1)) * (2 * epsilon).
Proof.
  intros Hi. pose proof (rank_row_lookup j i Hi) as Hrank.
  pose proof (range_val_pos w two_entries) as Hpos.
  unfold row_probabilities. rewrite list_lookup_fmap, Hrank. simpl.
  unfold fdiv.
  destruct (Qeq_bool (range_val (rank_row (length w) w)) 0) eqn:E.
  { apply Qeq_bool_iff in E. rewrite E in Hpos.
    exfalso. exact (Qlt_irrefl _ Hpos). }
  eexists. split; [reflexivity|].
  unfold range_val. rewrite rank_row_min, rank_row_max, Qnat_S.
  assert (Hc : Qnat (length w) == Qnat (length w - 1) + 1).
  { rewrite <- Qnat_S. replace (S (length w - 1)) with (length w) by lia.
    reflexivity. }
  rewrite Hc.
  assert (Hne : ~ Qnat (length w - 1) == 0).
  { intros Z. pose proof (Qnat_lt 0 (length w - 1) ltac:(lia)) as H.
    rewrite Z in H. exact (Qlt_irrefl _ H). }
  field. intros Z. apply Hne. rewrite <- Z. ring.
Qed.
End Ranks.

(** An index placed earlier by [argsort] may stand before one placed
    later. *)
Lemma argsort_places descending w j1 j2 i1 i2 :
  argsort w descending !! j1 = Some i1 ->
  argsort w descending !! j2 = Some i2 ->
  (j1 < j2)%nat -> ordered descending w i1 i2.
Proof.
  intros H1 H2 Hlt. apply (argsort_split descending w j2).
  - apply elem_of_take. exists j1. split; assumption.
  - apply (list_elem_of_lookup_2 _ (j2 - j2)).
    rewrite lookup_drop. replace (j2 + (j2 - j2))%nat with j2 by lia.
    exact H2.
Qed.

(** X10: the keep-probabilities of [rank_magnitude] on a row of at least
    two entries.  The entry that comes [j]-th (from 0) by ascending
    magnitude gets [density - epsilon + j / (n - 1) * 2 * epsilon]: an
    entry of smallest magnitude gets [density - epsilon], one of largest
    magnitude gets [density + epsilon], the others lie on the line in
    between. *)
Theorem rank_magnitude_probabilities density epsilon row :
  (2 <= length row)%nat ->
  (forall j i,
     argsort (map Qabs row) false !! j = Some i ->
     exists p,
       row_probabilities density epsilon
         (rank_row (length row) (map Qabs row)) !! i = Some (Some p) /\
       p == (density - epsilon) +
            (Qnat j / Qnat (length row - 1)) * (2 * epsilon)) /\
  (exists i p,
     (forall k, (k < length row)%nat ->
                Qabs (key row i) <= Qabs (key row k)) /\
     row_probabilities density epsilon
       (rank_row (length row) (map Qabs row)) !! i = Some (Some p) /\
     p == density - epsilon) /\
  (exists i p,
     (forall k, (k < length row)%nat ->
                Qabs (key row k) <= Qabs (key row i)) /\
     row_probabilities density epsilon
       (rank_row (length row) (map Qabs row)) !! i = Some (Some p) /\
     p == density + epsilon).
Proof.
  intros Hlen.
  assert (Hw : length (map Qabs row) = length row) by apply length_map.
  assert (Hlen' : (2 <= length (map Qabs row))%nat) by (rewrite Hw; exact Hlen).
  assert (Hat : forall j i,
            argsort (map Qabs row) false !! j = Some i ->
            exists p,
              row_probabilities density epsilon
                (rank_row (length row) (map Qabs row)) !! i = Some (Some p) /\
              p == (density - epsilon) +
                   (Qnat j / Qnat (length row - 1)) * (2 * epsilon)).
  { intros j i Hi. rewrite <- Hw.
    apply (rank_probability_at (map Qabs row) Hlen'), Hi. }
  assert (Hidx : length (argsort (map Qabs row) false) = length row)
    by (rewrite argsort_length; exact Hw).
  assert (Hplace : forall k, (k < length row)%nat ->
            exists j, argsort (map Qabs row) false !! j = Some k /\
                      (j < length row)%nat).
  { intros k Hk. rewrite <- Hw in Hk.
    apply (argsort_range false (map Qabs row)) in Hk.
    apply list_elem_of_lookup in Hk as [j Hj]. exists j. split; [exact Hj|].
    rewrite <- Hidx. eapply lookup_lt_Some, Hj. }
  split; [exact Hat|]. split.
  - destruct (lookup_lt_is_Some_2 (argsort (map Qabs row) false) 0)
      as [i Hi]; [lia|].
    destruct (Hat 0%nat i Hi) as (p & Hp & Hval).
    exists i, p. split; [|split; [exact Hp|]].
    + intros k Hk. destruct (Hplace k Hk) as (j & Hj & _).
      rewrite <- !key_map_abs.
      destruct j as [|j].
      * rewrite Hi in Hj. injection Hj as ->. apply Qle_refl.
      * apply (argsort_places false (map Qabs row) 0 (S j) i k Hi Hj). lia.
    + rewrite Hval. unfold Qnat at 1. simpl inject_Z. field.
      intros Z. pose proof (Qnat_lt 0 (length row - 1) ltac:(lia)) as H.
      rewrite Z in H. exact (Qlt_irrefl _ H).
  - destruct (lookup_lt_is_Some_2 (argsort (map Qabs row) false)
                (length row - 1)) as [i Hi]; [lia|].
    destruct (Hat (length row - 1)%nat i Hi) as (p & Hp & Hval).
    exists i, p. split; [|split; [exact Hp|]].
    + intros k Hk. destruct (Hplace k Hk) as (j & Hj & Hjlt).
      rewrite <- !key_map_abs.
      destruct (decide (j = length row - 1)%nat) as [->|Hne].
      * rewrite Hi in Hj. injection Hj as ->. apply Qle_refl.
      * apply (argsort_places false (map Qabs row) j (length row - 1) k i
                 Hj Hi). lia.
    + rewrite Hval. field.
      intros Z. pose proof (Qnat_lt 0 (length row - 1) ltac:(lia)) as H.
      rewrite Z in H. exact (Qlt_irrefl _ H).
Qed.

Lemma rank_magnitude_probabilities_witness :
  exists p,
    row_probabilities (1 # 2) (1 # 10) (rank_row 3 (map Qabs [3; -2; 1]))
      !! 2%nat = Some (Some p) /\
    p == 4 # 10.
Proof.
  destruct (rank_magnitude_probabilities (1 # 2) (1 # 10) [3; -2; 1])
    as (Hat & _).
  - simpl. lia.
  - destruct (Hat 0%nat 2%nat eq_refl) as (p & Hp & Hval).
    exists p. split; [exact Hp|]. rewrite Hval. reflexivity.
Defined.



(** ** rank_magnitude: the values returned *)












(** ** get_tall_mask: the role of lambda_factor *)

Lemma tall_entry delta lambda_factor mixed_delta i :
  numel mixed_delta = numel delta -> (i < numel delta)%nat ->
  b_data (get_tall_mask delta lambda_factor mixed_delta) !! i =
  Some (Qlt_bool
          (lambda_factor *
           Qabs (key (t_data mixed_delta) i - key (t_data delta) i))
          (Qabs (key (t_data delta) i))).
Proof.
  unfold numel. intros Hn Hi. simpl. rewrite lookup_zip_with.
  rewrite (key_lookup_lt (t_data delta) i Hi).
  rewrite (key_lookup_lt (t_data mixed_delta) i) by lia.
  reflexivity.
Qed.

(** X13: the TALL mask shrinks as [lambda_factor] grows: every position
    selected with a factor is selected with every smaller factor. *)
Theorem get_tall_mask_antitone delta mixed_delta lambda1 lambda2 i :
  numel mixed_delta = numel delta ->
  lambda1 <= lambda2 ->
  b_data (get_tall_mask delta lambda2 mixed_delta) !! i = Some true ->
  b_data (get_tall_mask delta lambda1 mixed_delta) !! i = Some true.
Proof.
  intros Hn Hle H2.
  assert (Hi : (i < numel delta)%nat).
  { apply lookup_lt_Some in H2. simpl in H2.
    rewrite length_zip_with in H2. unfold numel. lia. }
  rewrite (tall_entry delta lambda2 mixed_delta i Hn Hi) in H2.
  rewrite (tall_entry delta lambda1 mixed_delta i Hn Hi).
  apply (inj Some) in H2. apply Qlt_bool_true in H2.
  f_equal. apply Qlt_bool_true.
  eapply Qle_lt_trans; [|exact H2].
  apply Qmult_le_compat_r; [exact Hle | apply Qabs_nonneg].
Qed.

Lemma get_tall_mask_antitone_witness :
  b_data (get_tall_mask (vector [2; -1]) (1 # 2) (vector [3; -1])) !! 0%nat =
  Some true.
Proof.
  apply (get_tall_mask_antitone (vector [2; -1]) (vector [3; -1]) (1 # 2) 1).
  - reflexivity.
  - discriminate.
  - reflexivity.
Defined.



(** ** sparsify: the not-implemented error *)

Lemma implemented_ret {A} (a : A) : implemented (ret a).
Proof. intros s m s'. discriminate. Qed.

Lemma implemented_read l : implemented (read l).
Proof. intros s m s'. unfold read. destruct (heap s !! l); discriminate. Qed.

Lemma implemented_alloc t : implemented (alloc t).
Proof. intros s m s'. discriminate. Qed.

Lemma implemented_write l t : implemented (write l t).
Proof. intros s m s'. discriminate. Qed.

Lemma implemented_draw n : implemented (draw n).
Proof. intros s m s'. discriminate. Qed.

Lemma implemented_bind {A B} (c : M A) (k : A -> M B) :
  implemented c -> (forall a, implemented (k a)) -> implemented (bind c k).
Proof.
  intros Hc Hk s m s'. unfold bind. destruct (c s) as [a s1|e s1] eqn:E.
  - apply Hk.
  - intros H. injection H as -> ->. exact (Hc s m s' E).
Qed.

Lemma implemented_if {A} (b : bool) (c1 c2 : M A) :
  implemented c1 -> implemented c2 -> implemented (if b then c1 else c2).
Proof. destruct b; auto. Qed.

Lemma implemented_assertion {A} msg : implemented (@raise A (AssertionError msg)).
Proof. intros s m s'. discriminate. Qed.

Lemma implemented_value {A} msg : implemented (@raise A (ValueError msg)).
Proof. intros s m s'. discriminate. Qed.

Lemma implemented_runtime {A} msg : implemented (@raise A (RuntimeError msg)).
Proof. intros s m s'. discriminate. Qed.

Lemma implemented_index {A} msg : implemented (@raise A (IndexError msg)).
Proof. intros s m s'. discriminate. Qed.

Create HintDb implemented.

#[local] Hint Resolve implemented_ret implemented_read implemented_alloc
  implemented_write implemented_draw implemented_assertion implemented_value
  implemented_runtime implemented_index : implemented.

Ltac implemented_steps :=
  repeat first
    [ apply implemented_bind; [|intros ?]
    | apply implemented_if
    | solve [auto with implemented] ].

Lemma implemented_index_put mask idx v : implemented (index_put mask idx v).
Proof. unfold index_put. implemented_steps. Qed.

Lemma implemented_imul l c : implemented (imul l c).
Proof. unfold imul. implemented_steps. Qed.

Lemma implemented_idiv l c : implemented (idiv l c).
Proof. unfold idiv. implemented_steps. Qed.

#[local] Hint Resolve implemented_index_put implemented_imul implemented_idiv
  : implemented.

Lemma implemented_rescale_sum tensor mask :
  implemented (rescale_sum tensor mask).
Proof. unfold rescale_sum. implemented_steps. Qed.

Lemma implemented_torch_bernoulli like p : implemented (torch_bernoulli like p).
Proof. unfold torch_bernoulli. implemented_steps. Qed.

Lemma implemented_to l dt : implemented (to_ l dt).
Proof. unfold to_. implemented_steps. Qed.

#[local] Hint Resolve implemented_rescale_sum implemented_torch_bernoulli
  implemented_to : implemented.

Lemma implemented_magnitude tensor density rescale :
  implemented (magnitude tensor density rescale).
Proof. unfold magnitude. implemented_steps. Qed.

Lemma implemented_magnitude_outliers tensor density rescale gamma :
  implemented (magnitude_outliers tensor density rescale gamma).
Proof. unfold magnitude_outliers. implemented_steps. Qed.

Lemma implemented_bernoulli tensor density rescale :
  implemented (bernoulli tensor density rescale).
Proof. unfold bernoulli. implemented_steps. Qed.

Lemma implemented_rank_magnitude tensor density rescale epsilon :
  implemented (rank_magnitude tensor density rescale epsilon).
Proof. unfold rank_magnitude. implemented_steps. Qed.

(** X15: [sparsify] ends in the not-implemented error exactly for the
    one member of the enumeration it has no branch for, [consensus_ta]:
    then it raises on every input, without effect and with the method as
    argument; for every other method no input leads to that error,
    whatever the strategy called does. *)
Theorem sparsify_not_implemented_iff
  s tensor density method gamma rescale epsilon m s' :
  sparsify tensor density method gamma rescale epsilon s =
    Raise (NotImplementedError m) s' <->
  method = method_consensus_ta /\ m = method_consensus_ta /\ s' = s.
Proof.
  split.
  - destruct method; simpl; intros H;
      try (exfalso; revert H;
           first [ apply implemented_magnitude
                 | apply implemented_bernoulli
                 | apply implemented_magnitude_outliers
                 | apply implemented_rank_magnitude ]).
    unfold raise in H. injection H as <- <-. repeat split.
  - intros (-> & -> & ->). reflexivity.
Qed.

(** ** magnitude_outliers with rescaling *)





